(** * Patients GraphQL service: resolvers of [main.go] over the [patients] table

    The five field resolvers of [main.go] are embedded as programs over the
    calls they make on [database/sql] ([db.QueryRow(..).Scan], [db.Query],
    [rows.Scan], [db.Prepare], [stmt.Exec]) and on [fmt.Println].  A program
    either returns the pair [(interface{}, error)] of a graphql-go resolver,
    or ends the process through [log.Fatal].

    The store is not part of the Go sources.  Its behaviour is given by a
    handler; the handler [pg] follows the table declaration of the README
    (serial primary key, unique e-mail) for the five statements the
    resolvers send. *)

From stdpp Require Import gmap strings list.
From Stdlib Require Import ZArith Lia.

Open Scope string_scope.
Open Scope list_scope.
Open Scope Z_scope.

(** ** Data model *)

(** [type Patient struct { ID int; Name, Email, Phone string }] *)
Record Patient := mkPatient {
  ID : Z;
  Name : string;
  Email : string;
  Phone : string
}.

(** The zero value [Patient{}]. *)
Definition Patient_zero : Patient := mkPatient 0 "" "" "".

(** The errors that reach the resolvers: [sql.ErrNoRows], a [*pq.Error]
    with its SQLSTATE code and the constraint it names, and every other
    error of the driver (lost connection, failed conversion in [Scan]). *)
Inductive error :=
| ErrNoRows
| PqError (code : string) (constraint : string)
| DriverError (message : string).

(** SQLSTATE 23505, [unique_violation]. *)
Definition unique_violation (constraint : string) : error :=
  PqError "23505" constraint.

(** SQLSTATE 42601, [syntax_error]: the answer of the store to a text
    that is not one of its statements. *)
Definition syntax_error : error := PqError "42601" "".

(** A Go slice [[]*Patient]: [None] is the nil slice that
    [var patients []*Patient] declares. *)
Definition slice (A : Type) := option (list A).

Definition nil_slice {A} : slice A := None.

Definition slice_elems {A} (s : slice A) : list A :=
  match s with
  | None => []
  | Some l => l
  end.

(** [append(s, x)] *)
Definition append {A} (s : slice A) (x : A) : slice A :=
  Some (slice_elems s ++ [x]).

(** The [interface{}] a resolver returns: the untyped [nil] of [delete],
    the [*Patient] of [getPatient], the [Patient] of [create] and
    [update], the [[]*Patient] of [getPatients]. *)
Inductive gvalue :=
| VNil
| VPatientPtr (p : Patient)
| VPatient (p : Patient)
| VPatients (ps : slice Patient).

(** What a resolver returns: [(interface{}, error)]. *)
Definition resolved : Type := gvalue * option error.

(** An argument value after GraphQL coercion. *)
Inductive gqlval :=
| GInt (z : Z)
| GString (s : string).

(** [v, _ := Args[k].(int)]: the zero value when the key is absent or
    holds another type. *)
Definition assert_int (v : option gqlval) : Z :=
  match v with
  | Some (GInt z) => z
  | _ => 0
  end.

(** [v, _ := Args[k].(string)] *)
Definition assert_string (v : option gqlval) : string :=
  match v with
  | Some (GString s) => s
  | _ => ""
  end.

(** ** Calls on the store *)

(** A value bound to a placeholder, or held by a column of a row. *)
Inductive sqlval :=
| VInt (z : Z)
| VText (s : string)
| VNull.

(** The columns of the row a [*sql.Rows] stands on. *)
Definition Row := list sqlval.

(** A [*sql.Rows]: the rows [rows.Next()] steps through before it answers
    false, and the error [rows.Err()] holds once it has. *)
Record Rows := mkRows {
  rows_pending : list Row;
  rows_err : option error
}.

(** A [*sql.Stmt], with the text it was prepared from. *)
Record Stmt := mkStmt { stmt_query : string }.

(** The destinations the resolvers pass to [Scan]: [&lastInsertID], and
    [&patient.ID, &patient.Name, &patient.Email, &patient.Phone]. *)
Inductive dest : Type -> Type :=
| DInt : dest Z
| DPatient : dest Patient.

(** The zero values the destinations hold before [Scan]. *)
Definition dest_zero {D} (d : dest D) : D :=
  match d with
  | DInt => 0
  | DPatient => Patient_zero
  end.

(** The calls of the resolvers, indexed by what they give back.  A [Scan]
    gives back what the destinations hold after it, and its error. *)
Inductive Op : Type -> Type :=
| Println (a : list string) : Op unit
| QueryRowScan {D} (d : dest D) (query : string) (args : list sqlval)
    : Op (D * option error)
| Query (query : string) (args : list sqlval) : Op (error + Rows)
| RowsScan {D} (d : dest D) (r : Row) : Op (D * option error)
| Prepare (query : string) : Op (error + Stmt)
| StmtExec (st : Stmt) (args : list sqlval) : Op (error + Z).

(** The statement text a call carries to the store, if it carries one. *)
Definition op_query {R} (op : Op R) : option string :=
  match op with
  | QueryRowScan _ q _ => Some q
  | Query q _ => Some q
  | Prepare q => Some q
  | _ => None
  end.

(** The bound parameters a call carries. *)
Definition op_args {R} (op : Op R) : list sqlval :=
  match op with
  | QueryRowScan _ _ a => a
  | Query _ a => a
  | StmtExec _ a => a
  | _ => []
  end.

(** ** Programs *)

(** A resolver body: it returns, ends the process ([log.Fatal]), or makes
    a call and goes on with the answer. *)
Inductive Prog (A : Type) : Type :=
| Ret (a : A)
| Fatal (e : error)
| Do {R} (op : Op R) (k : R -> Prog A).

Arguments Ret {A} a.
Arguments Fatal {A} e.
Arguments Do {A R} op k.

Fixpoint bind {A B} (p : Prog A) (f : A -> Prog B) : Prog B :=
  match p with
  | Ret a => f a
  | Fatal e => Fatal e
  | Do op k => Do op (fun r => bind (k r) f)
  end.

#[global] Instance Prog_ret : MRet Prog := @Ret.
#[global] Instance Prog_bind : MBind Prog := fun A B f p => bind p f.

Definition call {R} (op : Op R) : Prog R := Do op Ret.

(** [func logFatal(err error) { if err != nil { log.Fatal(err) } }] *)
Definition logFatal (err : option error) : Prog unit :=
  match err with
  | Some e => Fatal e
  | None => Ret tt
  end.

(** [x, err := f(..); logFatal(err)] for a call that gives a value or an
    error. *)
Definition checked {A} (r : error + A) : Prog A :=
  match r with
  | inl e => Fatal e
  | inr a => Ret a
  end.

(** ** The resolvers *)

Module Resolver.

(** [Query.getPatient], main.go lines 89-99. *)
Definition getPatient (Args : gmap string gqlval) : Prog resolved :=
  let id := assert_int (Args !! "id") in
  '(patient, err) ← call (QueryRowScan DPatient
      "select id, name, email, phone from patients where id=$1" [VInt id]);
  logFatal err;;
  Ret (VPatientPtr patient, None).

(** The loop [for rows.Next() { .. }] of [getPatients]: the error of
    [rows.Scan] is assigned and not looked at, the patient is appended
    in either case. *)
Fixpoint scan_rows (rows : list Row) (patients : slice Patient)
  : Prog (slice Patient) :=
  match rows with
  | [] => Ret patients
  | r :: rest =>
      '(patient, err) ← call (RowsScan DPatient r);
      scan_rows rest (append patients patient)
  end.

(** [Query.getPatients], main.go lines 104-121. *)
Definition getPatients (Args : gmap string gqlval) : Prog resolved :=
  let patients := nil_slice in
  let stmt := "select * from patients" in
  rows ← call (Query stmt []) ≫= checked;
  patients ← scan_rows (rows_pending rows) patients;
  Ret (VPatients patients, None).

(** [Mutation.create], main.go lines 147-169. *)
Definition create (Args : gmap string gqlval) : Prog resolved :=
  let name := assert_string (Args !! "name") in
  let email := assert_string (Args !! "email") in
  let phone := assert_string (Args !! "phone") in
  call (Println [name; email; phone]);;
  let stmt :=
    "insert into patients(name, email, phone) values($1, $2, $3) returning id;" in
  '(lastInsertID, err) ← call (QueryRowScan DInt stmt
      [VText name; VText email; VText phone]);
  logFatal err;;
  Ret (VPatient (mkPatient lastInsertID name email phone), None).

(** [Mutation.update], main.go lines 188-207. *)
Definition update (Args : gmap string gqlval) : Prog resolved :=
  let id := assert_int (Args !! "id") in
  let name := assert_string (Args !! "name") in
  let email := assert_string (Args !! "email") in
  let phone := assert_string (Args !! "phone") in
  stmt ← call (Prepare
      "update patients set name = $1, email = $2, phone = $3 where id =$4")
    ≫= checked;
  _ ← call (StmtExec stmt [VText name; VText email; VText phone; VInt id])
    ≫= checked;
  Ret (VPatient (mkPatient id name email phone), None).

(** [Mutation.delete], main.go lines 217-227. *)
Definition delete (Args : gmap string gqlval) : Prog resolved :=
  let id := assert_int (Args !! "id") in
  stmt ← call (Prepare "delete from patients where id = $1") ≫= checked;
  _ ← call (StmtExec stmt [VInt id]) ≫= checked;
  Ret (VNil, None).

End Resolver.

(** ** Running a program against a store *)

(** A store answers every call and moves to a new state. *)
Definition handler (W : Type) : Type := forall R, Op R -> W -> R * W.

(** How a resolver ends: it returned to the GraphQL executor, or
    [log.Fatal] ended the process.  Both leave a state of the store. *)
Inductive outcome (W A : Type) : Type :=
| Returned (a : A) (w : W)
| Exited (e : error) (w : W).

Arguments Returned {W A} a w.
Arguments Exited {W A} e w.

Definition final_state {W A} (o : outcome W A) : W :=
  match o with
  | Returned _ w => w
  | Exited _ w => w
  end.

(** A resolver fails when the process ends or when it returns an error. *)
Definition failed {W} (o : outcome W resolved) : Prop :=
  match o with
  | Exited _ _ => True
  | Returned (_, Some _) _ => True
  | Returned (_, None) _ => False
  end.

Fixpoint run {W A} (h : handler W) (p : Prog A) (w : W) : outcome W A :=
  match p with
  | Ret a => Returned a w
  | Fatal e => Exited e w
  | Do op k => let (r, w') := h _ op w in run h (k r) w'
  end.

(** The statement texts a run sends to the store, in order. *)
Fixpoint sent {W A} (h : handler W) (p : Prog A) (w : W) : list string :=
  match p with
  | Ret _ => []
  | Fatal _ => []
  | Do op k =>
      let (r, w') := h _ op w in
      match op_query op with
      | Some q => q :: sent h (k r) w'
      | None => sent h (k r) w'
      end
  end.

(** Every call a program can make, whatever the store answers, satisfies
    [P]. *)
Inductive every_call (P : forall R, Op R -> Prop) {A} : Prog A -> Prop :=
| every_ret a : every_call P (Ret a)
| every_fatal e : every_call P (Fatal e)
| every_do R (op : Op R) k :
    P R op -> (forall r, every_call P (k r)) -> every_call P (Do op k).

(** ** The patients table *)

(** [CREATE TABLE patients (id SERIAL PRIMARY KEY, name TEXT NOT NULL,
    email TEXT UNIQUE NOT NULL, phone TEXT NOT NULL)]: the rows, and the
    value the sequence behind [id] gives next.  The sequence is taken
    without an upper end. *)
Record store := mkStore {
  table : list Patient;
  id_seq : Z
}.

(** The table as [CREATE TABLE] leaves it. *)
Definition store_init : store := mkStore [] 1.

Definition has_id (id : Z) (p : Patient) : bool := Z.eqb (ID p) id.
Definition has_email (email : string) (p : Patient) : bool :=
  String.eqb (Email p) email.
Definition other_id (id : Z) (p : Patient) : bool := negb (has_id id p).

(** The five statements of the resolvers. *)
Inductive statement :=
| SelectById
| SelectAll
| InsertReturningId
| UpdateById
| DeleteById.

Definition parse (q : string) : option statement :=
  if String.eqb q "select id, name, email, phone from patients where id=$1"
  then Some SelectById
  else if String.eqb q "select * from patients"
  then Some SelectAll
  else if String.eqb q
    "insert into patients(name, email, phone) values($1, $2, $3) returning id;"
  then Some InsertReturningId
  else if String.eqb q
    "update patients set name = $1, email = $2, phone = $3 where id =$4"
  then Some UpdateById
  else if String.eqb q "delete from patients where id = $1"
  then Some DeleteById
  else None.

(** A row in the column order of the table. *)
Definition row_of (p : Patient) : Row :=
  [VInt (ID p); VText (Name p); VText (Email p); VText (Phone p)].

(** What a statement gives: its rows and the number of rows it changed. *)
Record result := mkResult {
  res_rows : list Row;
  res_affected : Z
}.

(** [insert .. returning id]: the sequence gives the id and keeps the step
    even if the row is refused; the primary key and the unique e-mail are
    checked against the rows of the table. *)
Definition pg_insert (name email phone : string) (s : store)
  : (error + result) * store :=
  let id := id_seq s in
  let s' := mkStore (table s) (id + 1) in
  if existsb (has_id id) (table s)
  then (inl (unique_violation "patients_pkey"), s')
  else if existsb (has_email email) (table s)
  then (inl (unique_violation "patients_email_key"), s')
  else (inr (mkResult [[VInt id]] 1),
        mkStore (table s ++ [mkPatient id name email phone]) (id + 1)).

(** The new version of a row under [update .. where id = $4]. *)
Definition set_fields (name email phone : string) (id : Z) (p : Patient)
  : Patient :=
  if has_id id p then mkPatient (ID p) name email phone else p.

(** [update .. where id = $4]: refused when a row it writes would share
    its e-mail with another row. *)
Definition pg_update (name email phone : string) (id : Z) (s : store)
  : (error + result) * store :=
  let hit := List.filter (has_id id) (table s) in
  let others := List.filter (other_id id) (table s) in
  if existsb (has_id id) (table s)
     && (existsb (has_email email) others || Nat.ltb 1 (length hit))
  then (inl (unique_violation "patients_email_key"), s)
  else (inr (mkResult [] (Z.of_nat (length hit))),
        mkStore (map (set_fields name email phone id) (table s)) (id_seq s)).

(** [delete .. where id = $1] *)
Definition pg_delete (id : Z) (s : store) : (error + result) * store :=
  (inr (mkResult [] (Z.of_nat (length (List.filter (has_id id) (table s))))),
   mkStore (List.filter (other_id id) (table s)) (id_seq s)).

(** The answer to parameters that do not fit the placeholders. *)
Definition bind_error : error := PqError "08P01" "".

Definition pg_statement (q : string) (args : list sqlval) (s : store)
  : (error + result) * store :=
  match parse q with
  | None => (inl syntax_error, s)
  | Some SelectById =>
      match args with
      | [VInt id] =>
          (inr (mkResult (map row_of (List.filter (has_id id) (table s))) 0), s)
      | _ => (inl bind_error, s)
      end
  | Some SelectAll =>
      match args with
      | [] => (inr (mkResult (map row_of (table s)) 0), s)
      | _ => (inl bind_error, s)
      end
  | Some InsertReturningId =>
      match args with
      | [VText name; VText email; VText phone] => pg_insert name email phone s
      | _ => (inl bind_error, s)
      end
  | Some UpdateById =>
      match args with
      | [VText name; VText email; VText phone; VInt id] =>
          pg_update name email phone id s
      | _ => (inl bind_error, s)
      end
  | Some DeleteById =>
      match args with
      | [VInt id] => pg_delete id s
      | _ => (inl bind_error, s)
      end
  end.

(** [Scan] on a row.  The rows of this table fit the destinations; a row
    of another shape is answered with an error and the destinations keep
    their zero values. *)
Definition pg_scan {D} (d : dest D) (r : Row) : D * option error :=
  match d in dest D return D * option error with
  | DInt =>
      match r with
      | [VInt z] => (z, None)
      | _ => (0, Some (DriverError "sql: Scan error"))
      end
  | DPatient =>
      match r with
      | [VInt id; VText name; VText email; VText phone] =>
          (mkPatient id name email phone, None)
      | _ => (Patient_zero, Some (DriverError "sql: Scan error"))
      end
  end.

(** [db.QueryRow(..).Scan(..)]: the error of the statement, [ErrNoRows]
    without a row, else [Scan] on the first row. *)
Definition pg_query_row {D} (d : dest D) (q : string) (args : list sqlval)
  (s : store) : (D * option error) * store :=
  match pg_statement q args s with
  | (inl e, s') => ((dest_zero d, Some e), s')
  | (inr res, s') =>
      match res_rows res with
      | [] => ((dest_zero d, Some ErrNoRows), s')
      | r :: _ => (pg_scan d r, s')
      end
  end.

(** The store behind [db] when it is reachable and holds the table of the
    README. *)
Definition pg : handler store :=
  fun R op =>
    match op in Op R return store -> R * store with
    | Println _ => fun s => (tt, s)
    | QueryRowScan d q args => pg_query_row d q args
    | Query q args => fun s =>
        match pg_statement q args s with
        | (inl e, s') => (inl e, s')
        | (inr res, s') => (inr (mkRows (res_rows res) None), s')
        end
    | RowsScan d r => fun s => (pg_scan d r, s)
    | Prepare q => fun s =>
        match parse q with
        | Some _ => (inr (mkStmt q), s)
        | None => (inl syntax_error, s)
        end
    | StmtExec st args => fun s =>
        match pg_statement (stmt_query st) args s with
        | (inl e, s') => (inl e, s')
        | (inr res, s') => (inr (res_affected res), s')
        end
    end.

(** The same store after [alter table patients add column ..]: the rows
    of [select *] carry one column more. *)
Definition pg_extra_column : handler store :=
  fun R op =>
    match op in Op R return store -> R * store with
    | Query q args => fun s =>
        match pg _ (Query q args) s with
        | (inr rows, s') =>
            (inr (mkRows (map (fun r => r ++ [VNull]) (rows_pending rows))
                         (rows_err rows)), s')
        | other => other
        end
    | op' => pg _ op'
    end.

(** The invariant of the table: every id was given by the sequence, and
    ids and e-mails are unique. *)
Record store_wf (s : store) : Prop := mkWf {
  wf_seq : forall p, In p (table s) -> ID p < id_seq s;
  wf_ids : List.NoDup (map ID (table s));
  wf_emails : List.NoDup (map Email (table s))
}.

(** ** The GraphQL response *)

(** The part of a response a field contributes. *)
Inductive json :=
| JNull
| JObject (p : Patient)
| JArray (items : list Patient).

(** graphql-go's completion of a resolved value, for the types of this
    schema: the nil interface is null, a slice of any length, the nil
    slice too, is a list. *)
Definition completeValue (v : gvalue) : json :=
  match v with
  | VNil => JNull
  | VPatientPtr p => JObject p
  | VPatient p => JObject p
  | VPatients ps => JArray (slice_elems ps)
  end.

(** The resolvers of the schema and the statement of each. *)
Inductive resolver :=
| GetPatient
| GetPatients
| Create
| Update
| Delete.

Definition resolve (r : resolver) : gmap string gqlval -> Prog resolved :=
  match r with
  | GetPatient => Resolver.getPatient
  | GetPatients => Resolver.getPatients
  | Create => Resolver.create
  | Update => Resolver.update
  | Delete => Resolver.delete
  end.

Definition statement_text (r : resolver) : string :=
  match r with
  | GetPatient => "select id, name, email, phone from patients where id=$1"
  | GetPatients => "select * from patients"
  | Create =>
      "insert into patients(name, email, phone) values($1, $2, $3) returning id;"
  | Update =>
      "update patients set name = $1, email = $2, phone = $3 where id =$4"
  | Delete => "delete from patients where id = $1"
  end.

(** The parameters a resolver binds: the values of its arguments. *)
Definition bound_params (r : resolver) (Args : gmap string gqlval)
  : list sqlval :=
  let id := assert_int (Args !! "id") in
  let name := assert_string (Args !! "name") in
  let email := assert_string (Args !! "email") in
  let phone := assert_string (Args !! "phone") in
  match r with
  | GetPatient => [VInt id]
  | GetPatients => []
  | Create => [VText name; VText email; VText phone]
  | Update => [VText name; VText email; VText phone; VInt id]
  | Delete => [VInt id]
  end.

(** The arguments as the resolvers read them out of [Args]. *)
Definition arg_id (Args : gmap string gqlval) : Z :=
  assert_int (Args !! "id").
Definition arg_name (Args : gmap string gqlval) : string :=
  assert_string (Args !! "name").
Definition arg_email (Args : gmap string gqlval) : string :=
  assert_string (Args !! "email").
Definition arg_phone (Args : gmap string gqlval) : string :=
  assert_string (Args !! "phone").

(** The patient a mutation makes of its arguments and an id. *)
Definition patient_of (id : Z) (Args : gmap string gqlval) : Patient :=
  mkPatient id (arg_name Args) (arg_email Args) (arg_phone Args).

(** ** Requests and rows of the README *)

Definition andrew : gmap string gqlval :=
  {[ "name" := GString "Andrew"; "email" := GString "andrew@test.com";
     "phone" := GString "890123490" ]}.

Definition andrew_again : gmap string gqlval :=
  {[ "name" := GString "Andy"; "email" := GString "andrew@test.com";
     "phone" := GString "555" ]}.

Definition andrew_1 : Patient :=
  mkPatient 1 "Andrew" "andrew@test.com" "890123490".

Definition id_1 : gmap string gqlval := {[ "id" := GInt 1 ]}.

Definition update_7 : gmap string gqlval :=
  {[ "id" := GInt 7; "name" := GString "Andrew";
     "email" := GString "andrew@test.com"; "phone" := GString "890123490" ]}.

(** [updatePatient(id:1, phone:..)] with the e-mail the schema asks for
    and no name. *)
Definition update_1_no_name : gmap string gqlval :=
  {[ "id" := GInt 1; "email" := GString "andrew@test.com";
     "phone" := GString "3333333" ]}.

(** ** Requests in sequence, and what a run shows *)

(** A request that reached a resolver. *)
Definition request : Type := resolver * gmap string gqlval.

(** The table after the requests of a list, in order.  The table outlives
    the process: where a request ends the process, the next one finds the
    table as that request left it. *)
Fixpoint serve (reqs : list request) (s : store) : store :=
  match reqs with
  | [] => s
  | (r, Args) :: rest => serve rest (final_state (run pg (resolve r Args) s))
  end.

(** The [err] a call gives back, if it is not nil. *)
Definition op_error {R} (op : Op R) : R -> option error :=
  match op in Op R return R -> option error with
  | Println _ => fun _ => None
  | QueryRowScan _ _ _ => fun r => snd r
  | Query _ _ => fun r => match r with inl e => Some e | inr _ => None end
  | RowsScan _ _ => fun r => snd r
  | Prepare _ => fun r => match r with inl e => Some e | inr _ => None end
  | StmtExec _ _ => fun r => match r with inl e => Some e | inr _ => None end
  end.

(** The errors the store gives back in a run, in order. *)
Fixpoint reported {W A} (h : handler W) (p : Prog A) (w : W) : list error :=
  match p with
  | Ret _ => []
  | Fatal _ => []
  | Do op k =>
      let (r, w') := h _ op w in
      match op_error op r with
      | Some e => e :: reported h (k r) w'
      | None => reported h (k r) w'
      end
  end.

(** A call as it leaves the resolver: the operands handed to
    [fmt.Println], or a call on [database/sql] with the statement text
    and the parameters it carries. *)
Inductive event :=
| CPrintln (a : list string)
| CStore (query : option string) (args : list sqlval).

Definition op_event {R} (op : Op R) : event :=
  match op with
  | Println a => CPrintln a
  | _ => CStore (op_query op) (op_args op)
  end.

Definition is_store_call (c : event) : Prop :=
  match c with
  | CPrintln _ => False
  | CStore _ _ => True
  end.

(** The calls of a run, in the order they are made. *)
Fixpoint calls {W A} (h : handler W) (p : Prog A) (w : W) : list event :=
  match p with
  | Ret _ => []
  | Fatal _ => []
  | Do op k => let (r, w') := h _ op w in op_event op :: calls h (k r) w'
  end.

Definition john_1 : Patient := mkPatient 1 "John" "john@test.com" "12345678".

Definition andrew_2 : Patient :=
  mkPatient 2 "Andrew" "andrew@test.com" "890123490".

(** A second request to create a patient. *)
Definition john : gmap string gqlval :=
  {[ "name" := GString "John"; "email" := GString "john@test.com";
     "phone" := GString "12345678" ]}.

(** ** The arguments the schema declares *)

(** The type of an argument: [graphql.Int], [graphql.String], or one of
    them under [graphql.NewNonNull]. *)
Inductive argtype :=
| TInt
| TString
| TNonNull (t : argtype).

(** The [Args] of the five fields, main.go lines 84-88, 136-146, 174-187
    and 212-216; [getPatients] declares none. *)
Definition field_args (r : resolver) : list (string * argtype) :=
  match r with
  | GetPatient => [("id", TInt)]
  | GetPatients => []
  | Create => [("name", TNonNull TString); ("email", TNonNull TString);
               ("phone", TNonNull TString)]
  | Update => [("id", TNonNull TInt); ("name", TString);
               ("email", TNonNull TString); ("phone", TNonNull TString)]
  | Delete => [("id", TNonNull TInt)]
  end.

(** A [delete] request that carries a name besides its id. *)
Definition id_1_named : gmap string gqlval :=
  {[ "id" := GInt 1; "name" := GString "Andrew" ]}.

(** * Properties *)

(** ** Running programs *)

Lemma run_bind {W A B} (h : handler W) (p : Prog A) (f : A -> Prog B) w :
  run h (bind p f) w =
  match run h p w with
  | Returned a w' => run h (f a) w'
  | Exited e w' => Exited e w'
  end.
Proof.
  revert w. induction p as [a | e | R op k IH]; intros w; simpl; trivial.
  destruct (h R op w) as [r w']. apply IH.
Qed.

Lemma row_of_scan p : pg_scan DPatient (row_of p) = (p, None).
Proof. destruct p; reflexivity. Qed.

(** ** Lists of rows *)

Lemma has_id_true id p : has_id id p = true <-> ID p = id.
Proof. unfold has_id. apply Z.eqb_eq. Qed.

Lemma has_id_false id p : has_id id p = false <-> ID p <> id.
Proof. unfold has_id. apply Z.eqb_neq. Qed.

Lemma has_email_true e p : has_email e p = true <-> Email p = e.
Proof. unfold has_email. apply String.eqb_eq. Qed.

Lemma no_row_with_id id l :
  existsb (has_id id) l = false <-> (forall p, In p l -> ID p <> id).
Proof.
  induction l as [| a l IH]; simpl.
  - split; [intros _ p [] | trivial].
  - rewrite orb_false_iff, IH, has_id_false. split.
    + intros [Ha Hl] p [<- | Hp]; auto.
    + intros H. split; [apply H; now left | intros p Hp; apply H; now right].
Qed.

Lemma no_row_with_email e l :
  existsb (has_email e) l = false <-> (forall p, In p l -> Email p <> e).
Proof.
  induction l as [| a l IH]; simpl.
  - split; [intros _ p [] | trivial].
  - rewrite orb_false_iff, IH. split.
    + intros [Ha Hl] p [<- | Hp]; auto.
      intros He. apply has_email_true in He. congruence.
    + intros H. split; [| intros p Hp; apply H; now right].
      destruct (has_email e a) eqn:He; trivial.
      apply has_email_true in He. exfalso. apply (H a); [now left | trivial].
Qed.

Lemma filter_has_id_absent id l :
  (forall p, In p l -> ID p <> id) -> List.filter (has_id id) l = [].
Proof.
  induction l as [| a l IH]; simpl; intros H; trivial.
  destruct (has_id id a) eqn:Ha.
  - apply has_id_true in Ha. exfalso. apply (H a); [now left | trivial].
  - apply IH. intros p Hp. apply H. now right.
Qed.

Lemma set_fields_absent name email phone id l :
  (forall p, In p l -> ID p <> id) ->
  map (set_fields name email phone id) l = l.
Proof.
  induction l as [| a l IH]; simpl; intros H; trivial.
  rewrite IH by (intros p Hp; apply H; now right).
  unfold set_fields.
  destruct (has_id id a) eqn:Ha; trivial.
  apply has_id_true in Ha. exfalso. apply (H a); [now left | trivial].
Qed.

Lemma set_fields_ID name email phone id p :
  ID (set_fields name email phone id p) = ID p.
Proof. unfold set_fields. now destruct (has_id id p). Qed.

Lemma map_ID_set_fields name email phone id l :
  map ID (map (set_fields name email phone id) l) = map ID l.
Proof.
  induction l as [| a l IH]; simpl; trivial.
  now rewrite set_fields_ID, IH.
Qed.

Lemma in_other_id id l p :
  In p (List.filter (other_id id) l) <-> In p l /\ ID p <> id.
Proof.
  rewrite List.filter_In. unfold other_id.
  rewrite negb_true_iff, has_id_false. reflexivity.
Qed.

Lemma NoDup_map_filter {A B} (f : A -> B) (g : A -> bool) (l : list A) :
  List.NoDup (map f l) -> List.NoDup (map f (List.filter g l)).
Proof.
  induction l as [| a l IH]; simpl; intros H; trivial.
  apply NoDup_cons_iff in H as [Ha Hl].
  destruct (g a); simpl; auto.
  apply NoDup_cons_iff. split; auto.
  intros Hin. apply Ha. apply in_map_iff in Hin as [x [Hx Hin]].
  apply in_map_iff. exists x. split; trivial.
  now apply List.filter_In in Hin.
Qed.

Lemma NoDup_map_snoc {A B} (f : A -> B) (l : list A) (a : A) :
  List.NoDup (map f l) -> (forall x, In x l -> f x <> f a) ->
  List.NoDup (map f (l ++ [a])).
Proof.
  intros Hl Ha. rewrite map_app. apply List.NoDup_app; trivial.
  - simpl. apply List.NoDup_cons; [intros [] | constructor].
  - intros b Hb [<- | []]. apply in_map_iff in Hb as [x [Hx Hin]].
    now apply (Ha x).
Qed.

Lemma set_fields_emails_unique name email phone id l :
  List.NoDup (map ID l) -> List.NoDup (map Email l) ->
  (forall p, In p (List.filter (other_id id) l) -> Email p <> email) ->
  List.NoDup (map Email (map (set_fields name email phone id) l)).
Proof.
  induction l as [| a l IH]; simpl; intros Hids Hemails Hothers; trivial.
  apply NoDup_cons_iff in Hids as [Hida Hids].
  apply NoDup_cons_iff in Hemails as [Hea Hemails].
  unfold set_fields at 1. unfold other_id in Hothers.
  destruct (has_id id a) eqn:Ha; simpl in *.
  - apply has_id_true in Ha.
    assert (Hl : forall p, In p l -> ID p <> id).
    { intros p Hp Hid. apply Hida. apply in_map_iff. exists p.
      split; [congruence | trivial]. }
    rewrite set_fields_absent by exact Hl.
    apply NoDup_cons_iff. split; trivial.
    intros Hin. apply in_map_iff in Hin as [p [Hp Hin]].
    apply (Hothers p); trivial.
    apply List.filter_In. split; trivial.
    apply negb_true_iff, has_id_false. now apply Hl.
  - apply NoDup_cons_iff. split.
    + intros Hin. apply in_map_iff in Hin as [p' [Hp' Hin]].
      apply in_map_iff in Hin as [p [<- Hin]].
      unfold set_fields in Hp'. destruct (has_id id p) eqn:Hp; simpl in Hp'.
      * apply (Hothers a); [now left | congruence].
      * apply Hea. apply in_map_iff. exists p. now split.
    + apply IH; trivial. intros p Hp. apply Hothers. now right.
Qed.

(** ** The resolvers on the table *)

Section OnTheTable.

Variable Args : gmap string gqlval.
Variable s : store.

Lemma run_getPatient :
  run pg (Resolver.getPatient Args) s =
  match List.filter (has_id (arg_id Args)) (table s) with
  | [] => Exited ErrNoRows s
  | p :: _ => Returned (VPatientPtr p, None) s
  end.
Proof.
  unfold Resolver.getPatient. cbn.
  unfold pg_query_row, pg_statement. cbn. fold (arg_id Args).
  destruct (List.filter (has_id (arg_id Args)) (table s)) as [| p rest];
    cbn; trivial.
  destruct p; reflexivity.
Qed.

Lemma run_scan_rows (l : list Patient) (acc : slice Patient) :
  run pg (Resolver.scan_rows (map row_of l) acc) s =
  Returned (match l with [] => acc | _ => Some (slice_elems acc ++ l) end) s.
Proof.
  revert acc. induction l as [| p l IH]; intros acc; trivial.
  cbn [map Resolver.scan_rows]. unfold mbind, Prog_bind, call.
  cbn [bind run pg]. rewrite row_of_scan. rewrite IH.
  destruct l; cbn; trivial. now rewrite <- app_assoc.
Qed.

Lemma run_getPatients :
  run pg (Resolver.getPatients Args) s =
  Returned (VPatients (match table s with [] => None | l => Some l end), None) s.
Proof.
  unfold Resolver.getPatients, mbind, Prog_bind.
  rewrite !run_bind. cbn. rewrite run_bind, run_scan_rows.
  destruct (table s); reflexivity.
Qed.

Lemma run_create :
  run pg (Resolver.create Args) s =
  match pg_insert (arg_name Args) (arg_email Args) (arg_phone Args) s with
  | (inl e, s') => Exited e s'
  | (inr _, s') => Returned (VPatient (patient_of (id_seq s) Args), None) s'
  end.
Proof.
  unfold Resolver.create. cbn. unfold pg_query_row, pg_statement. cbn.
  fold (arg_name Args) (arg_email Args) (arg_phone Args). unfold pg_insert.
  destruct (existsb (has_id (id_seq s)) (table s)); trivial.
  destruct (existsb (has_email (arg_email Args)) (table s)); trivial.
Qed.

Lemma run_update :
  run pg (Resolver.update Args) s =
  match pg_update (arg_name Args) (arg_email Args) (arg_phone Args)
                  (arg_id Args) s with
  | (inl e, s') => Exited e s'
  | (inr _, s') => Returned (VPatient (patient_of (arg_id Args) Args), None) s'
  end.
Proof.
  unfold Resolver.update. cbn. unfold pg_statement. cbn.
  fold (arg_id Args) (arg_name Args) (arg_email Args) (arg_phone Args).
  destruct (pg_update _ _ _ _ s) as [[e | res] s']; trivial.
Qed.

Lemma run_delete :
  run pg (Resolver.delete Args) s =
  Returned (VNil, None)
           (mkStore (List.filter (other_id (arg_id Args)) (table s)) (id_seq s)).
Proof. reflexivity. Qed.

End OnTheTable.

(** ** The invariant of the table *)

Lemma store_init_wf : store_wf store_init.
Proof. constructor; cbn; [intros p [] | constructor | constructor]. Qed.

(** Every resolver keeps the invariant, however it ends. *)
Lemma resolvers_keep_wf (r : resolver) (Args : gmap string gqlval) (s : store) :
  store_wf s -> store_wf (final_state (run pg (resolve r Args) s)).
Proof.
  intros [Hseq Hids Hemails]. destruct r; cbn [resolve].
  - rewrite run_getPatient.
    destruct (List.filter _ _); now constructor.
  - rewrite run_getPatients. now constructor.
  - rewrite run_create. unfold pg_insert.
    destruct (existsb (has_id (id_seq s)) (table s)) eqn:Hid;
      [| destruct (existsb (has_email _) (table s)) eqn:Hemail];
      cbn [final_state]; constructor; cbn [table id_seq]; trivial;
      try (intros p Hp; specialize (Hseq p Hp); lia).
    + intros p Hp. apply in_app_iff in Hp as [Hp | [<- | []]].
      * specialize (Hseq p Hp). lia.
      * cbn. lia.
    + apply NoDup_map_snoc; trivial.
      intros p Hp. specialize (Hseq p Hp). cbn. lia.
    + apply NoDup_map_snoc; trivial.
      intros p Hp. cbn. now apply (proj1 (no_row_with_email _ _) Hemail).
  - rewrite run_update. unfold pg_update.
    destruct (existsb (has_id _) (table s)) eqn:Hid; cbn [andb].
    + destruct (existsb (has_email _) _) eqn:Hemail; cbn [orb];
        [now constructor |].
      destruct (Nat.ltb _ _); [now constructor |].
      cbn [final_state]. constructor; cbn [table id_seq].
      * intros p Hp. apply in_map_iff in Hp as [p0 [<- Hp0]].
        rewrite set_fields_ID. now apply Hseq.
      * now rewrite map_ID_set_fields.
      * apply set_fields_emails_unique; trivial.
        apply no_row_with_email. exact Hemail.
    + cbn [final_state].
      rewrite set_fields_absent by (now apply no_row_with_id).
      now constructor.
  - rewrite run_delete. cbn [final_state].
    constructor; cbn [table id_seq].
    + intros p Hp. apply in_other_id in Hp. now apply Hseq.
    + now apply NoDup_map_filter.
    + now apply NoDup_map_filter.
Qed.

(** The sequence never steps back: an id it gave is not given again. *)
Lemma id_seq_grows (r : resolver) (Args : gmap string gqlval) (s : store) :
  id_seq s <= id_seq (final_state (run pg (resolve r Args) s)).
Proof.
  destruct r; cbn [resolve].
  - rewrite run_getPatient. destruct (List.filter _ _); cbn; lia.
  - rewrite run_getPatients. cbn. lia.
  - rewrite run_create. unfold pg_insert.
    destruct (existsb _ _); [| destruct (existsb _ _)]; cbn; lia.
  - rewrite run_update. unfold pg_update.
    destruct (_ && _); cbn; lia.
  - rewrite run_delete. cbn. lia.
Qed.

(** ** Facts that hold for every store *)

Lemma every_call_bind {A B} (P : forall R, Op R -> Prop)
  (p : Prog A) (f : A -> Prog B) :
  every_call P p -> (forall a, every_call P (f a)) -> every_call P (bind p f).
Proof.
  intros Hp Hf. induction Hp as [a | e | R op k Hop Hk IH]; simpl.
  - apply Hf.
  - constructor.
  - constructor; assumption.
Qed.

Lemma every_call_checked {A} (P : forall R, Op R -> Prop) (r : error + A) :
  every_call P (checked r).
Proof. destruct r; constructor. Qed.

Lemma every_call_logFatal (P : forall R, Op R -> Prop) (err : option error) :
  every_call P (logFatal err).
Proof. destruct err; constructor. Qed.

Lemma every_call_scan_rows (P : forall R, Op R -> Prop) rows acc :
  (forall r, P _ (RowsScan DPatient r)) ->
  every_call P (Resolver.scan_rows rows acc).
Proof.
  intros HP. revert acc.
  induction rows as [| r rest IH]; intros acc; simpl; constructor.
  - apply HP.
  - intros [patient err]. apply IH.
Qed.

Create HintDb calls.

#[local] Hint Resolve every_call_checked every_call_logFatal : calls.
#[local] Hint Constructors every_call : calls.

(** The texts of a run are among those the program can send. *)
Lemma every_call_sent {W A} (h : handler W) (q : string) (p : Prog A) :
  every_call (fun R op => forall q', op_query op = Some q' -> q' = q) p ->
  forall w, Forall (eq q) (sent h p w).
Proof.
  induction 1 as [a | e | R op k Hop Hk IH]; intros w; simpl;
    try constructor.
  destruct (h R op w) as [r w'].
  destruct (op_query op) as [q' |] eqn:Hq; [constructor |]; auto.
  symmetry. auto.
Qed.

Section AnyStore.

Context {W : Type} (h : handler W).
Variable Args : gmap string gqlval.

(** The error of [QueryRow(..).Scan] in [getPatient], [sql.ErrNoRows]
    among them, ends the process. *)
Lemma getPatient_error_exits w w' p e :
  h _ (QueryRowScan DPatient (statement_text GetPatient) [VInt (arg_id Args)]) w
    = ((p, Some e), w') ->
  run h (Resolver.getPatient Args) w = Exited e w'.
Proof. intros Hh. cbn. fold (arg_id Args). cbn in Hh. now rewrite Hh. Qed.

(** The error of [db.Query] in [getPatients] ends the process. *)
Lemma getPatients_query_error_exits w w' e :
  h _ (Query (statement_text GetPatients) []) w = (inl e, w') ->
  run h (Resolver.getPatients Args) w = Exited e w'.
Proof. intros Hh. cbn. cbn in Hh. now rewrite Hh. Qed.

(** The error of [QueryRow(..).Scan] in [create] ends the process. *)
Lemma create_error_exits w w1 w' z e :
  h _ (Println [arg_name Args; arg_email Args; arg_phone Args]) w = (tt, w1) ->
  h _ (QueryRowScan DInt (statement_text Create) (bound_params Create Args)) w1
    = ((z, Some e), w') ->
  run h (Resolver.create Args) w = Exited e w'.
Proof.
  intros Hp Hh. cbn. cbn in Hp, Hh.
  unfold arg_name, arg_email, arg_phone in Hp. rewrite Hp. now rewrite Hh.
Qed.

(** The error of [db.Prepare] ends the process, in [update] and in
    [delete]. *)
Lemma update_prepare_error_exits w w' e :
  h _ (Prepare (statement_text Update)) w = (inl e, w') ->
  run h (Resolver.update Args) w = Exited e w'.
Proof. intros Hh. cbn. cbn in Hh. now rewrite Hh. Qed.

Lemma delete_prepare_error_exits w w' e :
  h _ (Prepare (statement_text Delete)) w = (inl e, w') ->
  run h (Resolver.delete Args) w = Exited e w'.
Proof. intros Hh. cbn. cbn in Hh. now rewrite Hh. Qed.

(** The error of [stmt.Exec] ends the process, in [update] and in
    [delete]. *)
Lemma update_exec_error_exits w w1 w' st e :
  h _ (Prepare (statement_text Update)) w = (inr st, w1) ->
  h _ (StmtExec st (bound_params Update Args)) w1 = (inl e, w') ->
  run h (Resolver.update Args) w = Exited e w'.
Proof.
  intros Hp Hh. cbn. cbn in Hp, Hh. rewrite Hp. cbn. now rewrite Hh.
Qed.

Lemma delete_exec_error_exits w w1 w' st e :
  h _ (Prepare (statement_text Delete)) w = (inr st, w1) ->
  h _ (StmtExec st (bound_params Delete Args)) w1 = (inl e, w') ->
  run h (Resolver.delete Args) w = Exited e w'.
Proof.
  intros Hp Hh. cbn. cbn in Hp, Hh. rewrite Hp. cbn. now rewrite Hh.
Qed.

(** What [update] returns does not come from the store. *)
Lemma update_returns_arguments w w' v :
  run h (Resolver.update Args) w = Returned v w' ->
  v = (VPatient (patient_of (arg_id Args) Args), None).
Proof.
  cbn.
  destruct (h _ (Prepare _) w) as [[e | st] w1]; cbn; [discriminate |].
  destruct (h _ (StmtExec st _) w1) as [[e | n] w2]; cbn; [discriminate |].
  intros [= <- _]. reflexivity.
Qed.

(** What [delete] returns does not come from the store. *)
Lemma delete_returns_nil w w' v :
  run h (Resolver.delete Args) w = Returned v w' -> v = (VNil, None).
Proof.
  cbn.
  destruct (h _ (Prepare _) w) as [[e | st] w1]; cbn; [discriminate |].
  destruct (h _ (StmtExec st _) w1) as [[e | n] w2]; cbn; [discriminate |].
  congruence.
Qed.

End AnyStore.

(** ** The requests of the README *)

Example create_andrew :
  run pg (Resolver.create andrew) store_init
  = Returned (VPatient andrew_1, None) (mkStore [andrew_1] 2).
Proof. vm_compute. reflexivity. Qed.

Example getPatients_after_create :
  run pg (Resolver.getPatients ∅) (mkStore [andrew_1] 2)
  = Returned (VPatients (Some [andrew_1]), None) (mkStore [andrew_1] 2).
Proof. vm_compute. reflexivity. Qed.

Example getPatient_1 :
  run pg (Resolver.getPatient id_1) (mkStore [andrew_1] 2)
  = Returned (VPatientPtr andrew_1, None) (mkStore [andrew_1] 2).
Proof. vm_compute. reflexivity. Qed.

Example getPatient_unknown :
  run pg (Resolver.getPatient id_1) store_init = Exited ErrNoRows store_init.
Proof. vm_compute. reflexivity. Qed.

Example sent_by_create :
  sent pg (Resolver.create andrew) store_init
  = ["insert into patients(name, email, phone) values($1, $2, $3) returning id;"].
Proof. vm_compute. reflexivity. Qed.

(** An e-mail taken by another row: the store refuses the update and the
    process ends. *)
Example update_to_taken_email :
  run pg (Resolver.update update_1_no_name)
      (mkStore [mkPatient 1 "John" "john@test.com" "12345678";
                mkPatient 2 "Andrew" "andrew@test.com" "890123490"] 3)
  = Exited (unique_violation "patients_email_key")
      (mkStore [mkPatient 1 "John" "john@test.com" "12345678";
                mkPatient 2 "Andrew" "andrew@test.com" "890123490"] 3).
Proof. vm_compute. reflexivity. Qed.

(** * Properties of the service *)

(** C1. On a store whose patients table is empty, [getPatients] returns,
    with a nil error, a slice of no elements: the process goes on, the
    value is not the nil interface, and the response holds the empty
    list, not null. *)
Theorem getPatients_empty_table (Args : gmap string gqlval) (s : store) :
  table s = [] ->
  run pg (Resolver.getPatients Args) s = Returned (VPatients nil_slice, None) s
  /\ ~ failed (run pg (Resolver.getPatients Args) s)
  /\ slice_elems (@nil_slice Patient) = []
  /\ VPatients nil_slice <> VNil
  /\ completeValue (VPatients nil_slice) = JArray []
  /\ completeValue (VPatients nil_slice) <> JNull.
Proof.
  intros Hempty. rewrite run_getPatients, Hempty. cbn.
  repeat split; auto; discriminate.
Qed.

Lemma getPatients_empty_table_witness :
  table store_init = []
  /\ run pg (Resolver.getPatients ∅) store_init
     = Returned (VPatients nil_slice, None) store_init.
Proof.
  split; [reflexivity |].
  apply (getPatients_empty_table ∅ store_init). reflexivity.
Defined.

(** C2. When a [create] has returned, a second [create] with the same
    e-mail fails: the store refuses the row with a unique violation
    (SQLSTATE 23505), which [logFatal] turns into the end of the process,
    and the table keeps exactly the rows it had.  On a table that
    satisfies its invariant the constraint named is the one on the
    e-mail. *)
Theorem create_same_email_conflict (Args1 Args2 : gmap string gqlval)
  (s s1 : store) (v : resolved) :
  run pg (Resolver.create Args1) s = Returned v s1 ->
  arg_email Args2 = arg_email Args1 ->
  exists c,
    run pg (Resolver.create Args2) s1
      = Exited (unique_violation c) (mkStore (table s1) (id_seq s1 + 1))
    /\ failed (run pg (Resolver.create Args2) s1)
    /\ table (final_state (run pg (Resolver.create Args2) s1)) = table s1
    /\ (store_wf s -> c = "patients_email_key").
Proof.
  intros Hfirst Hsame. rewrite run_create in Hfirst. unfold pg_insert in Hfirst.
  destruct (existsb (has_id (id_seq s)) (table s)) eqn:Hid; [discriminate |].
  destruct (existsb (has_email _) (table s)) eqn:Hemail; [discriminate |].
  injection Hfirst as _ <-.
  rewrite run_create. unfold pg_insert. cbn [table id_seq]. rewrite Hsame.
  assert (Htaken : existsb (has_email (arg_email Args1))
      (table s ++ [mkPatient (id_seq s) (arg_name Args1) (arg_email Args1)
                             (arg_phone Args1)]) = true).
  { rewrite existsb_app. cbn [existsb]. unfold has_email at 2.
    cbn [Email]. rewrite String.eqb_refl. now rewrite !orb_true_r. }
  rewrite Htaken.
  destruct (existsb (has_id (id_seq s + 1)) _) eqn:Hpk.
  - exists "patients_pkey". repeat split; trivial.
    intros [Hseq _ _]. exfalso.
    apply existsb_exists in Hpk as [p [Hp Hpid]].
    apply has_id_true in Hpid.
    apply in_app_iff in Hp as [Hp | [<- | []]].
    + specialize (Hseq p Hp). lia.
    + cbn in Hpid. lia.
  - exists "patients_email_key". repeat split; trivial.
Qed.

Lemma create_same_email_conflict_witness :
  run pg (Resolver.create andrew) store_init
    = Returned (VPatient andrew_1, None) (mkStore [andrew_1] 2)
  /\ arg_email andrew_again = arg_email andrew
  /\ exists c,
    run pg (Resolver.create andrew_again) (mkStore [andrew_1] 2)
      = Exited (unique_violation c) (mkStore [andrew_1] 3)
    /\ failed (run pg (Resolver.create andrew_again) (mkStore [andrew_1] 2))
    /\ table (final_state
               (run pg (Resolver.create andrew_again) (mkStore [andrew_1] 2)))
       = [andrew_1]
    /\ (store_wf store_init -> c = "patients_email_key").
Proof.
  split; [vm_compute; reflexivity |].
  split; [vm_compute; reflexivity |].
  apply (create_same_email_conflict andrew andrew_again store_init
           (mkStore [andrew_1] 2) (VPatient andrew_1, None)).
  - vm_compute. reflexivity.
  - vm_compute. reflexivity.
Defined.

(** C3, as the code has it. For an id that no row of the table has,
    [update] changes no row and returns, with a nil error, the patient
    made of its arguments: the statement matches no row and the resolver
    does not look at the number of rows it changed. *)
Theorem update_missing_id (Args : gmap string gqlval) (s : store) :
  (forall p, In p (table s) -> ID p <> arg_id Args) ->
  run pg (Resolver.update Args) s
    = Returned (VPatient (patient_of (arg_id Args) Args), None) s
  /\ ~ failed (run pg (Resolver.update Args) s).
Proof.
  intros Hno. rewrite run_update. unfold pg_update.
  rewrite (proj2 (no_row_with_id _ _) Hno). cbn [andb].
  rewrite set_fields_absent by exact Hno.
  destruct s; cbn. split; [reflexivity | tauto].
Qed.

Lemma update_missing_id_witness :
  (forall p, In p (table store_init) -> ID p <> arg_id update_7)
  /\ run pg (Resolver.update update_7) store_init
     = Returned (VPatient (patient_of (arg_id update_7) update_7), None)
                store_init.
Proof.
  split; [intros p [] |].
  apply (update_missing_id update_7 store_init). intros p [].
Defined.

(** C3, as stated, does not hold: on the empty table no row has id 7,
    and [update] with id 7 neither ends the process nor returns an
    error; it returns the patient of its arguments. *)
Lemma update_missing_id_not_found_fails :
  (forall p, In p (table store_init) -> ID p <> arg_id update_7)
  /\ run pg (Resolver.update update_7) store_init
     = Returned
         (VPatient (mkPatient 7 "Andrew" "andrew@test.com" "890123490"), None)
         store_init
  /\ ~ failed (run pg (Resolver.update update_7) store_init).
Proof.
  split; [intros p [] |].
  split; [vm_compute; reflexivity | vm_compute; tauto].
Qed.

(** C4. On a table that satisfies its invariant, [create] with an e-mail
    no row has returns a patient with the name, e-mail and phone passed
    and an id that no row of the table has and that the sequence had not
    reached before; [getPatient] with that id then returns a patient
    with that id and the same name, e-mail and phone. *)
Theorem create_then_getPatient (Args : gmap string gqlval) (s : store) :
  store_wf s ->
  (forall p, In p (table s) -> Email p <> arg_email Args) ->
  exists id s1,
    run pg (Resolver.create Args) s
      = Returned (VPatient (patient_of id Args), None) s1
    /\ (forall p, In p (table s) -> ID p <> id)
    /\ id_seq s <= id < id_seq s1
    /\ store_wf s1
    /\ run pg (Resolver.getPatient {[ "id" := GInt id ]}) s1
       = Returned (VPatientPtr (patient_of id Args), None) s1.
Proof.
  intros Hwf Hfresh. pose proof (wf_seq _ Hwf) as Hseq.
  assert (Hid : forall p, In p (table s) -> ID p <> id_seq s).
  { intros p Hp. specialize (Hseq p Hp). lia. }
  pose proof (resolvers_keep_wf Create Args s Hwf) as Hwf1.
  cbn [resolve] in Hwf1. rewrite run_create in Hwf1. unfold pg_insert in Hwf1.
  rewrite (proj2 (no_row_with_id _ _) Hid) in Hwf1.
  rewrite (proj2 (no_row_with_email _ _) Hfresh) in Hwf1.
  cbn [final_state] in Hwf1.
  exists (id_seq s). rewrite run_create. unfold pg_insert.
  rewrite (proj2 (no_row_with_id _ _) Hid).
  rewrite (proj2 (no_row_with_email _ _) Hfresh). eexists.
  split; [reflexivity |]. split; [exact Hid |].
  split; [cbn; lia |]. split; [exact Hwf1 |].
  rewrite run_getPatient. cbn [table]. unfold arg_id at 1.
  rewrite lookup_singleton_eq. cbn [assert_int].
  rewrite List.filter_app, filter_has_id_absent by exact Hid.
  cbn. unfold has_id. cbn. now rewrite Z.eqb_refl.
Qed.

Lemma create_then_getPatient_witness :
  store_wf store_init
  /\ (forall p, In p (table store_init) -> Email p <> arg_email andrew)
  /\ exists id s1,
    run pg (Resolver.create andrew) store_init
      = Returned (VPatient (patient_of id andrew), None) s1
    /\ (forall p, In p (table store_init) -> ID p <> id)
    /\ id_seq store_init <= id < id_seq s1
    /\ store_wf s1
    /\ run pg (Resolver.getPatient {[ "id" := GInt id ]}) s1
       = Returned (VPatientPtr (patient_of id andrew), None) s1.
Proof.
  split; [exact store_init_wf |].
  split; [intros p [] |].
  apply (create_then_getPatient andrew store_init).
  - exact store_init_wf.
  - intros p [].
Defined.

(** C5. For an id that a row of the table has, [delete] takes that row
    out, keeps the rows of other ids, and returns the nil interface with
    a nil error, which the response shows as null; [getPatient] for that
    id then fails: it ends with [sql.ErrNoRows]. *)
Theorem delete_then_getPatient (Args Args' : gmap string gqlval)
  (s : store) (p : Patient) :
  In p (table s) ->
  ID p = arg_id Args ->
  arg_id Args' = arg_id Args ->
  exists s1,
    run pg (Resolver.delete Args) s = Returned (VNil, None) s1
    /\ completeValue VNil = JNull
    /\ ~ In p (table s1)
    /\ (forall q, In q (table s1) <-> In q (table s) /\ ID q <> arg_id Args)
    /\ run pg (Resolver.getPatient Args') s1 = Exited ErrNoRows s1
    /\ failed (run pg (Resolver.getPatient Args') s1).
Proof.
  intros Hin Hid Hsame. eexists. split; [apply run_delete |].
  assert (Hget : run pg (Resolver.getPatient Args')
      (mkStore (List.filter (other_id (arg_id Args)) (table s)) (id_seq s)) =
    Exited ErrNoRows
      (mkStore (List.filter (other_id (arg_id Args)) (table s)) (id_seq s))).
  { rewrite run_getPatient, Hsame. cbn [table].
    rewrite filter_has_id_absent; trivial.
    intros q Hq. now apply in_other_id in Hq. }
  cbn [table]. split; [reflexivity |]. split; [| split; [| split]].
  - intros Hp. apply in_other_id in Hp. tauto.
  - intros q. apply in_other_id.
  - exact Hget.
  - now rewrite Hget.
Qed.

Lemma delete_then_getPatient_witness :
  In andrew_1 (table (mkStore [andrew_1] 2))
  /\ ID andrew_1 = arg_id id_1
  /\ exists s1,
    run pg (Resolver.delete id_1) (mkStore [andrew_1] 2)
      = Returned (VNil, None) s1
    /\ completeValue VNil = JNull
    /\ ~ In andrew_1 (table s1)
    /\ (forall q, In q (table s1) <->
                  In q (table (mkStore [andrew_1] 2)) /\ ID q <> arg_id id_1)
    /\ run pg (Resolver.getPatient id_1) s1 = Exited ErrNoRows s1
    /\ failed (run pg (Resolver.getPatient id_1) s1).
Proof.
  split; [simpl; left; reflexivity |].
  split; [reflexivity |].
  apply (delete_then_getPatient id_1 id_1 (mkStore [andrew_1] 2) andrew_1).
  - simpl. left. reflexivity.
  - reflexivity.
  - reflexivity.
Defined.

(** C6. For the four resolvers that bind parameters, [getPatient],
    [create], [update] and [delete], on every store: an error that a
    call on the store gives back ends the process, with that error, and
    is not returned to the GraphQL executor; when one of them returns,
    no call gave back an error and the error it returns is nil.  Among
    these errors is the [sql.ErrNoRows] of [getPatient] for an id that
    no row of the table has. *)
Theorem storage_errors_end_process {W} (h : handler W) (r : resolver)
  (Args : gmap string gqlval) (w : W) :
  r <> GetPatients ->
  (forall e, In e (reported h (resolve r Args) w) ->
             exists w', run h (resolve r Args) w = Exited e w')
  /\ (forall v err w',
        run h (resolve r Args) w = Returned (v, err) w' ->
        err = None /\ reported h (resolve r Args) w = [])
  /\ (forall s : store,
        (forall p, In p (table s) -> ID p <> arg_id Args) ->
        reported pg (Resolver.getPatient Args) s = [ErrNoRows]
        /\ run pg (Resolver.getPatient Args) s = Exited ErrNoRows s).
Proof.
  intros Hr.
  assert (Hrun : match run h (resolve r Args) w with
                 | Exited e _ => reported h (resolve r Args) w = [e]
                 | Returned (_, err) _ =>
                     err = None /\ reported h (resolve r Args) w = []
                 end).
  { destruct r; [| congruence | | |]; cbn.
    - destruct (h _ (QueryRowScan _ _ _) w) as [[patient [e |]] w1]; cbn;
        auto.
    - destruct (h _ (Println _) w) as [[] w0]. cbn.
      destruct (h _ (QueryRowScan _ _ _) w0) as [[id [e |]] w1]; cbn; auto.
    - destruct (h _ (Prepare _) w) as [[e | st] w1]; cbn; trivial.
      destruct (h _ (StmtExec st _) w1) as [[e | n] w2]; cbn; auto.
    - destruct (h _ (Prepare _) w) as [[e | st] w1]; cbn; trivial.
      destruct (h _ (StmtExec st _) w1) as [[e | n] w2]; cbn; auto. }
  split; [| split].
  - intros e Hin.
    destruct (run h (resolve r Args) w) as [[v err] w' | e0 w'].
    + destruct Hrun as [_ Hnil]. rewrite Hnil in Hin. contradiction.
    + rewrite Hrun in Hin. destruct Hin as [<- | []]. now exists w'.
  - intros v err w' Hret. now rewrite Hret in Hrun.
  - intros s Hno. split.
    + cbn. unfold pg_query_row, pg_statement. cbn. fold (arg_id Args).
      now rewrite filter_has_id_absent.
    + rewrite run_getPatient. now rewrite filter_has_id_absent.
Qed.

Lemma storage_errors_end_process_witness :
  GetPatient <> GetPatients
  /\ In ErrNoRows (reported pg (resolve GetPatient id_1) store_init)
  /\ exists w', run pg (resolve GetPatient id_1) store_init
               = Exited ErrNoRows w'.
Proof.
  split; [discriminate |].
  split; [vm_compute; left; reflexivity |].
  apply (proj1 (storage_errors_end_process pg GetPatient id_1 store_init
                  ltac:(discriminate))).
  vm_compute. left. reflexivity.
Defined.

(** C7. For each of the five resolvers and all argument values, every
    statement text the resolver hands to the store, whatever the store
    answers, is the constant text of that resolver; the argument values
    travel in the list of bound parameters; and so the texts sent in any
    run are that constant. *)
Theorem statement_text_constant (r : resolver) (Args : gmap string gqlval) :
  every_call (fun R op =>
      (forall q, op_query op = Some q -> q = statement_text r)
      /\ (op_args op = [] \/ op_args op = bound_params r Args))
    (resolve r Args)
  /\ (forall W (h : handler W) w,
        Forall (eq (statement_text r)) (sent h (resolve r Args) w)).
Proof.
  assert (Hall : every_call (fun R op =>
      (forall q, op_query op = Some q -> q = statement_text r)
      /\ (op_args op = [] \/ op_args op = bound_params r Args))
    (resolve r Args)).
  { destruct r; cbn.
    - constructor.
      + split; [intros q [= <-]; reflexivity | right; reflexivity].
      + intros [patient err]. apply every_call_bind; auto with calls.
    - constructor.
      + split; [intros q [= <-]; reflexivity | left; reflexivity].
      + intros res. apply every_call_bind; auto with calls.
        intros rows. apply every_call_bind; auto with calls.
        apply every_call_scan_rows. intros row.
        split; [discriminate | left; reflexivity].
    - constructor.
      + split; [discriminate | left; reflexivity].
      + intros []. constructor.
        * split; [intros q [= <-]; reflexivity | right; reflexivity].
        * intros [lastInsertID err]. apply every_call_bind; auto with calls.
    - constructor.
      + split; [intros q [= <-]; reflexivity | left; reflexivity].
      + intros res. apply every_call_bind; auto with calls.
        intros stmt. constructor.
        * split; [discriminate | right; reflexivity].
        * intros res'. apply every_call_bind; auto with calls.
    - constructor.
      + split; [intros q [= <-]; reflexivity | left; reflexivity].
      + intros res. apply every_call_bind; auto with calls.
        intros stmt. constructor.
        * split; [discriminate | right; reflexivity].
        * intros res'. apply every_call_bind; auto with calls. }
  split; [exact Hall |].
  intros W h w. apply every_call_sent.
  clear -Hall.
  induction Hall as [a | e | R op k [Hop _] Hk IH]; constructor; auto.
Qed.

(** C8. [update] leaves the id of every row as it was: the rows stay in
    their places, a row of another id is not touched, a row of the id
    given keeps its id and is either untouched (the store refused the
    statement) or takes the name, e-mail and phone given; the sequence
    does not move.  No other resolver rewrites a row: [create] adds rows
    at the end, [delete] takes out the rows of its id, the queries leave
    the table as it is. *)
Theorem update_keeps_ids (Args : gmap string gqlval) (s : store) :
  let s' := final_state (run pg (Resolver.update Args) s) in
  map ID (table s') = map ID (table s)
  /\ Forall2 (fun p p' =>
        ID p' = ID p
        /\ (ID p <> arg_id Args -> p' = p)
        /\ (p' = p \/ p' = patient_of (ID p) Args))
      (table s) (table s')
  /\ id_seq s' = id_seq s
  /\ (forall r : resolver,
        let t' := table (final_state (run pg (resolve r Args) s)) in
        match r with
        | GetPatient | GetPatients => t' = table s
        | Create => exists l, t' = table s ++ l
        | Update => map ID t' = map ID (table s)
        | Delete => t' = List.filter (other_id (arg_id Args)) (table s)
        end).
Proof.
  intros s'.
  set (same := fun p p' : Patient =>
        ID p' = ID p
        /\ (ID p <> arg_id Args -> p' = p)
        /\ (p' = p \/ p' = patient_of (ID p) Args)).
  assert (Hsame : forall l : list Patient, Forall2 same l l).
  { induction l; constructor; unfold same; auto. }
  assert (Hset : forall l : list Patient,
      Forall2 same l
        (map (set_fields (arg_name Args) (arg_email Args) (arg_phone Args)
                         (arg_id Args)) l)).
  { induction l as [| a l IH]; cbn [map]; constructor; trivial.
    unfold same, set_fields. destruct (has_id (arg_id Args) a) eqn:Ha; auto.
    apply has_id_true in Ha. cbn. repeat split; auto. tauto. }
  assert (Hupd : map ID (table s') = map ID (table s)
                 /\ Forall2 same (table s) (table s')
                 /\ id_seq s' = id_seq s).
  { subst s'. rewrite run_update. unfold pg_update.
    destruct (_ && _); cbn [final_state table id_seq].
    - auto.
    - rewrite map_ID_set_fields. auto. }
  destruct Hupd as (Hids & Hrows & Hseq).
  split; [exact Hids |]. split; [exact Hrows |]. split; [exact Hseq |].
  intros r. destruct r; cbn [resolve]; cbn zeta.
  - rewrite run_getPatient. now destruct (List.filter _ _).
  - now rewrite run_getPatients.
  - rewrite run_create. unfold pg_insert.
    destruct (existsb _ _); [| destruct (existsb _ _)]; cbn [final_state table].
    + exists []. now rewrite app_nil_r.
    + exists []. now rewrite app_nil_r.
    + eexists. reflexivity.
  - exact Hids.
  - now rewrite run_delete.
Qed.

(** C9. When the [name] argument is left out, [update] binds the empty
    string to the name: if the statement goes through, the table is the
    old one with the rows of that id rewritten to the empty name and the
    e-mail and phone given, and if the store refuses it nothing is
    written.  On every store and for all arguments, what [update]
    returns is the patient made of its arguments, not a row read back. *)
Theorem update_name_omitted :
  (forall (Args : gmap string gqlval) (s : store),
      Args !! "name" = None ->
      every_call (fun R op =>
          op_args op = []
          \/ op_args op = [VText ""; VText (arg_email Args);
                           VText (arg_phone Args); VInt (arg_id Args)])
        (Resolver.update Args)
      /\ match run pg (Resolver.update Args) s with
         | Returned v s' =>
             v = (VPatient (mkPatient (arg_id Args) "" (arg_email Args)
                                      (arg_phone Args)), None)
             /\ table s' = map (set_fields "" (arg_email Args) (arg_phone Args)
                                           (arg_id Args)) (table s)
             /\ (forall p, In p (table s') -> ID p = arg_id Args -> Name p = "")
         | Exited e s' => s' = s
         end)
  /\ (forall W (h : handler W) (Args : gmap string gqlval) w w' v,
        run h (Resolver.update Args) w = Returned v w' ->
        v = (VPatient (patient_of (arg_id Args) Args), None)).
Proof.
  split.
  - intros Args s Hname.
    split.
    { unfold Resolver.update. rewrite Hname. cbn. constructor.
      - left; reflexivity.
      - intros res. apply every_call_bind; auto with calls.
        intros stmt. constructor.
        + right; reflexivity.
        + intros res'. apply every_call_bind; auto with calls. }
    rewrite run_update. unfold patient_of, arg_name. rewrite Hname.
    cbn [assert_string]. unfold pg_update.
    destruct (_ && _); trivial.
    split; [reflexivity |]. split; [reflexivity |].
    cbn [table]. intros p Hp Hid.
    apply in_map_iff in Hp as [p0 [<- Hp0]].
    rewrite set_fields_ID in Hid. unfold set_fields.
    apply has_id_true in Hid. now rewrite Hid.
  - intros W h Args w w' v. apply update_returns_arguments.
Qed.

Lemma update_name_omitted_witness :
  update_1_no_name !! "name" = None
  /\ (every_call (fun R op =>
          op_args op = []
          \/ op_args op = [VText ""; VText (arg_email update_1_no_name);
                           VText (arg_phone update_1_no_name);
                           VInt (arg_id update_1_no_name)])
        (Resolver.update update_1_no_name)
      /\ match run pg (Resolver.update update_1_no_name)
                   (mkStore [andrew_1] 2) with
         | Returned v s' =>
             v = (VPatient (mkPatient (arg_id update_1_no_name) ""
                                      (arg_email update_1_no_name)
                                      (arg_phone update_1_no_name)), None)
             /\ table s' = map (set_fields "" (arg_email update_1_no_name)
                                           (arg_phone update_1_no_name)
                                           (arg_id update_1_no_name))
                               (table (mkStore [andrew_1] 2))
             /\ (forall p, In p (table s') ->
                           ID p = arg_id update_1_no_name -> Name p = "")
         | Exited e s' => s' = mkStore [andrew_1] 2
         end)
  /\ run pg (Resolver.update update_1_no_name) (mkStore [andrew_1] 2)
     = Returned (VPatient (mkPatient 1 "" "andrew@test.com" "3333333"), None)
                (mkStore [mkPatient 1 "" "andrew@test.com" "3333333"] 2)
  /\ (VPatient (mkPatient 1 "" "andrew@test.com" "3333333"), @None error)
     = (VPatient (patient_of (arg_id update_1_no_name) update_1_no_name), None).
Proof.
  split; [vm_compute; reflexivity |].
  split.
  { apply (proj1 update_name_omitted update_1_no_name (mkStore [andrew_1] 2)).
    vm_compute. reflexivity. }
  split; [vm_compute; reflexivity |].
  apply (proj2 update_name_omitted store pg update_1_no_name
           (mkStore [andrew_1] 2)
           (mkStore [mkPatient 1 "" "andrew@test.com" "3333333"] 2)).
  vm_compute. reflexivity.
Defined.

(** C10. For every id and every table, [delete] returns the nil
    interface with a nil error, shown as null in the response, whether a
    row has that id or not; on every store, whatever [delete] returns is
    that same pair. *)
Theorem delete_same_answer (Args : gmap string gqlval) :
  (forall s : store, exists s',
      run pg (Resolver.delete Args) s = Returned (VNil, None) s'
      /\ ~ failed (run pg (Resolver.delete Args) s))
  /\ completeValue VNil = JNull
  /\ (forall W (h : handler W) w w' v,
        run h (Resolver.delete Args) w = Returned v w' -> v = (VNil, None)).
Proof.
  split; [| split; [reflexivity |]].
  - intros s. eexists. rewrite run_delete. split; [reflexivity | tauto].
  - intros W h w w' v. apply delete_returns_nil.
Qed.

Lemma delete_same_answer_witness :
  (exists s',
      run pg (Resolver.delete id_1) (mkStore [andrew_1] 2)
        = Returned (VNil, None) s'
      /\ ~ failed (run pg (Resolver.delete id_1) (mkStore [andrew_1] 2)))
  /\ (exists s',
      run pg (Resolver.delete id_1) store_init = Returned (VNil, None) s'
      /\ ~ failed (run pg (Resolver.delete id_1) store_init))
  /\ run pg (Resolver.delete id_1) store_init
     = Returned (VNil, None) store_init
  /\ (VNil, @None error) = (VNil, None).
Proof.
  split; [| split; [| split]].
  - exact (proj1 (delete_same_answer id_1) (mkStore [andrew_1] 2)).
  - exact (proj1 (delete_same_answer id_1) store_init).
  - vm_compute. reflexivity.
  - apply (proj2 (proj2 (delete_same_answer id_1)) store pg
             store_init store_init (VNil, None)).
    vm_compute. reflexivity.
Defined.

(** * Further properties of the resolvers *)

(** ** What a run sends, reports and calls *)

Lemma sent_bind {W A B} (h : handler W) (p : Prog A) (f : A -> Prog B) w :
  sent h (bind p f) w =
  sent h p w ++ match run h p w with
                | Returned a w' => sent h (f a) w'
                | Exited _ _ => []
                end.
Proof.
  revert w. induction p as [a | e | R op k IH]; intros w; simpl; trivial.
  destruct (h R op w) as [r w']. rewrite IH.
  now destruct (op_query op).
Qed.

Lemma reported_bind {W A B} (h : handler W) (p : Prog A) (f : A -> Prog B) w :
  reported h (bind p f) w =
  reported h p w ++ match run h p w with
                    | Returned a w' => reported h (f a) w'
                    | Exited _ _ => []
                    end.
Proof.
  revert w. induction p as [a | e | R op k IH]; intros w; simpl; trivial.
  destruct (h R op w) as [r w']. rewrite IH.
  now destruct (op_error op r).
Qed.

Lemma calls_bind {W A B} (h : handler W) (p : Prog A) (f : A -> Prog B) w :
  calls h (bind p f) w =
  calls h p w ++ match run h p w with
                 | Returned a w' => calls h (f a) w'
                 | Exited _ _ => []
                 end.
Proof.
  revert w. induction p as [a | e | R op k IH]; intros w; simpl; trivial.
  destruct (h R op w) as [r w']. now rewrite IH.
Qed.

Section TheLoop.

Context {W : Type} (h : handler W).

(** The loop of [getPatients] goes through all its rows and appends one
    patient a row. *)
Lemma scan_rows_returns rows acc w :
  exists ps w',
    run h (Resolver.scan_rows rows acc) w = Returned ps w'
    /\ length (slice_elems ps)
       = (length (slice_elems acc) + length rows)%nat.
Proof.
  revert acc w. induction rows as [| r rest IH]; intros acc w.
  - exists acc, w. split; [reflexivity | cbn; lia].
  - cbn. destruct (h _ (RowsScan DPatient r) w) as [[patient err] w1].
    destruct (IH (append acc patient) w1) as (ps & w' & Hrun & Hlen).
    exists ps, w'. split; [exact Hrun |].
    rewrite Hlen. cbn. rewrite length_app. cbn. lia.
Qed.

Lemma sent_scan_rows rows acc w :
  sent h (Resolver.scan_rows rows acc) w = [].
Proof.
  revert acc w. induction rows as [| r rest IH]; intros acc w; trivial.
  cbn. destruct (h _ (RowsScan DPatient r) w) as [[patient err] w1].
  apply IH.
Qed.

Lemma calls_scan_rows rows acc w :
  Forall is_store_call (calls h (Resolver.scan_rows rows acc) w).
Proof.
  revert acc w. induction rows as [| r rest IH]; intros acc w.
  - constructor.
  - cbn. destruct (h _ (RowsScan DPatient r) w) as [[patient err] w1].
    constructor; [exact I | apply IH].
Qed.

End TheLoop.

(** The shape of [getPatients] once [db.Query] has answered. *)
Lemma getPatients_after_query {W} (h : handler W) Args w :
  run h (Resolver.getPatients Args) w =
  match h _ (Query "select * from patients" []) w with
  | (inl e, w1) => Exited e w1
  | (inr rows, w1) =>
      match run h (Resolver.scan_rows (rows_pending rows) nil_slice) w1 with
      | Returned ps w' => Returned (VPatients ps, None) w'
      | Exited e w' => Exited e w'
      end
  end.
Proof.
  unfold Resolver.getPatients, mbind, Prog_bind.
  rewrite !run_bind. cbn.
  destruct (h _ (Query _ _) w) as [[e | rows] w1]; cbn; trivial.
  rewrite run_bind.
  now destruct (run h (Resolver.scan_rows _ _) w1).
Qed.

(** X1. On a store that answers [db.Query] with a cursor, [getPatients]
    returns, with a nil error, one patient for each row of the cursor,
    whatever [rows.Scan] gives for the rows. *)
Theorem getPatients_one_per_row {W} (h : handler W)
  (Args : gmap string gqlval) (w w1 : W) (rows : Rows) :
  h _ (Query "select * from patients" []) w = (inr rows, w1) ->
  exists ps w',
    run h (Resolver.getPatients Args) w = Returned (VPatients ps, None) w'
    /\ length (slice_elems ps) = length (rows_pending rows).
Proof.
  intros Hq. rewrite getPatients_after_query, Hq.
  destruct (scan_rows_returns h (rows_pending rows) nil_slice w1)
    as (ps & w' & Hrun & Hlen).
  exists ps, w'. rewrite Hrun. split; [reflexivity | exact Hlen].
Qed.

Lemma getPatients_one_per_row_witness :
  pg_extra_column _ (Query "select * from patients" [])
                  (mkStore [john_1; andrew_2] 3)
    = (inr (mkRows [row_of john_1 ++ [VNull]; row_of andrew_2 ++ [VNull]] None),
       mkStore [john_1; andrew_2] 3)
  /\ exists ps w',
    run pg_extra_column (Resolver.getPatients ∅) (mkStore [john_1; andrew_2] 3)
      = Returned (VPatients ps, None) w'
    /\ length (slice_elems ps) = 2%nat.
Proof.
  split; [vm_compute; reflexivity |].
  apply (getPatients_one_per_row pg_extra_column ∅
           (mkStore [john_1; andrew_2] 3) (mkStore [john_1; andrew_2] 3)
           (mkRows [row_of john_1 ++ [VNull]; row_of andrew_2 ++ [VNull]] None)).
  vm_compute. reflexivity.
Defined.

(** X2. [getPatients] on the table returns every row of it, once and in
    the order of the table, with a nil error, and leaves the store as it
    was; the response lists these rows. *)
Theorem getPatients_lists_table (Args : gmap string gqlval) (s : store) :
  exists ps,
    run pg (Resolver.getPatients Args) s = Returned (VPatients ps, None) s
    /\ slice_elems ps = table s
    /\ completeValue (VPatients ps) = JArray (table s).
Proof.
  rewrite run_getPatients. eexists. split; [reflexivity |].
  destruct (table s); split; reflexivity.
Qed.

(** X3. No resolver ever returns a non-nil error: on every store, a
    resolver that returns, returns [nil] as its error. *)
Theorem resolvers_return_nil_error {W} (h : handler W) (r : resolver)
  (Args : gmap string gqlval) (w w' : W) (v : gvalue) (err : option error) :
  run h (resolve r Args) w = Returned (v, err) w' -> err = None.
Proof.
  destruct r; cbn [resolve].
  - cbn. destruct (h _ (QueryRowScan _ _ _) w) as [[patient [e |]] w1]; cbn;
      [discriminate | congruence].
  - rewrite getPatients_after_query.
    destruct (h _ (Query _ _) w) as [[e | rows] w1]; [discriminate |].
    destruct (run h (Resolver.scan_rows _ _) w1); [congruence | discriminate].
  - cbn. destruct (h _ (Println _) w) as [[] w0].
    destruct (h _ (QueryRowScan _ _ _) w0) as [[id [e |]] w1]; cbn;
      [discriminate | congruence].
  - cbn. destruct (h _ (Prepare _) w) as [[e | st] w1]; cbn; [discriminate |].
    destruct (h _ (StmtExec st _) w1) as [[e | n] w2]; cbn;
      [discriminate | congruence].
  - cbn. destruct (h _ (Prepare _) w) as [[e | st] w1]; cbn; [discriminate |].
    destruct (h _ (StmtExec st _) w1) as [[e | n] w2]; cbn;
      [discriminate | congruence].
Qed.

Lemma resolvers_return_nil_error_witness :
  run pg (resolve Create andrew) store_init
    = Returned (VPatient andrew_1, None) (mkStore [andrew_1] 2)
  /\ @None error = None.
Proof.
  split; [vm_compute; reflexivity |].
  apply (resolvers_return_nil_error pg Create andrew store_init
           (mkStore [andrew_1] 2) (VPatient andrew_1) None).
  vm_compute. reflexivity.
Defined.

(** X4. On every store, a resolver ends the process exactly when one of
    its calls gives back an error that it passes to [logFatal], and with
    that error: when the process ends, the one error the store gave back
    in the run is the error it ends with; when the resolver returns, the
    store gave back no error, unless the resolver is [getPatients], whose
    [rows.Scan] errors are not looked at. *)
Theorem exit_is_first_reported_error {W} (h : handler W) (r : resolver)
  (Args : gmap string gqlval) (w : W) :
  match run h (resolve r Args) w with
  | Exited e _ => reported h (resolve r Args) w = [e]
  | Returned _ _ => r = GetPatients \/ reported h (resolve r Args) w = []
  end.
Proof.
  destruct r; cbn [resolve].
  - cbn. destruct (h _ (QueryRowScan _ _ _) w) as [[patient [e |]] w1]; cbn;
      auto.
  - rewrite getPatients_after_query. cbn.
    destruct (h _ (Query _ _) w) as [[e | rows] w1]; cbn; trivial.
    destruct (scan_rows_returns h (rows_pending rows) nil_slice w1)
      as (ps & w' & Hrun & _).
    rewrite Hrun. now left.
  - cbn. destruct (h _ (Println _) w) as [[] w0]. cbn.
    destruct (h _ (QueryRowScan _ _ _) w0) as [[id [e |]] w1]; cbn; auto.
  - cbn. destruct (h _ (Prepare _) w) as [[e | st] w1]; cbn; trivial.
    destruct (h _ (StmtExec st _) w1) as [[e | n] w2]; cbn; auto.
  - cbn. destruct (h _ (Prepare _) w) as [[e | st] w1]; cbn; trivial.
    destruct (h _ (StmtExec st _) w1) as [[e | n] w2]; cbn; auto.
Qed.

(** X5. On every store and whatever it answers, each resolver sends one
    statement text in a request, the text of that resolver: there is no
    second statement, no retry and no statement for each row. *)
Theorem one_statement_per_request {W} (h : handler W) (r : resolver)
  (Args : gmap string gqlval) (w : W) :
  sent h (resolve r Args) w = [statement_text r].
Proof.
  destruct r; cbn [resolve].
  - cbn. destruct (h _ (QueryRowScan _ _ _) w) as [[patient [e |]] w1];
      reflexivity.
  - unfold Resolver.getPatients, mbind, Prog_bind.
    rewrite !sent_bind, !run_bind. cbn.
    destruct (h _ (Query _ _) w) as [[e | rows] w1]; cbn; trivial.
    rewrite sent_bind, sent_scan_rows. cbn.
    now destruct (run h (Resolver.scan_rows _ _) w1).
  - cbn. destruct (h _ (Println _) w) as [[] w0]. cbn.
    destruct (h _ (QueryRowScan _ _ _) w0) as [[id [e |]] w1]; reflexivity.
  - cbn. destruct (h _ (Prepare _) w) as [[e | st] w1]; cbn; trivial.
    destruct (h _ (StmtExec st _) w1) as [[e | n] w2]; reflexivity.
  - cbn. destruct (h _ (Prepare _) w) as [[e | st] w1]; cbn; trivial.
    destruct (h _ (StmtExec st _) w1) as [[e | n] w2]; reflexivity.
Qed.

(** X6. On every store and whatever it answers, [create] calls
    [fmt.Println] once in a request, with the name, e-mail and phone it
    was given as operands, and makes this call before its one call on
    the store; no other resolver calls [fmt.Println]. *)
Theorem create_prints_then_calls_store {W} (h : handler W) (r : resolver)
  (Args : gmap string gqlval) (w : W) :
  match r with
  | Create =>
      calls h (resolve r Args) w
      = [CPrintln [arg_name Args; arg_email Args; arg_phone Args];
         CStore (Some (statement_text Create)) (bound_params Create Args)]
  | _ => Forall is_store_call (calls h (resolve r Args) w)
  end.
Proof.
  destruct r; cbn [resolve].
  - cbn. destruct (h _ (QueryRowScan _ _ _) w) as [[patient [e |]] w1];
      repeat constructor.
  - unfold Resolver.getPatients, mbind, Prog_bind.
    rewrite !calls_bind, !run_bind. cbn.
    destruct (h _ (Query _ _) w) as [[e | rows] w1]; cbn;
      [repeat constructor |].
    constructor; [exact I |]. rewrite calls_bind.
    apply Forall_app. split; [apply calls_scan_rows |].
    destruct (run h (Resolver.scan_rows _ _) w1); constructor.
  - cbn. destruct (h _ (Println _) w) as [[] w0]. cbn.
    destruct (h _ (QueryRowScan _ _ _) w0) as [[id [e |]] w1]; reflexivity.
  - cbn. destruct (h _ (Prepare _) w) as [[e | st] w1]; cbn;
      [repeat constructor |].
    destruct (h _ (StmtExec st _) w1) as [[e | n] w2]; repeat constructor.
  - cbn. destruct (h _ (Prepare _) w) as [[e | st] w1]; cbn;
      [repeat constructor |].
    destruct (h _ (StmtExec st _) w1) as [[e | n] w2]; repeat constructor.
Qed.

(** X7. On every store, what [create] returns is the patient made of the
    id that [Scan] wrote and of the name, e-mail and phone of the
    arguments, and what [getPatient] returns is the patient that [Scan]
    wrote: [create] does not read its row back. *)
Theorem create_returns_arguments {W} (h : handler W)
  (Args : gmap string gqlval) (w w' : W) (v : resolved) :
  (run h (Resolver.create Args) w = Returned v w' ->
   exists (id : Z) (w0 w1 : W),
     h _ (Println [arg_name Args; arg_email Args; arg_phone Args]) w = (tt, w0)
     /\ h _ (QueryRowScan DInt (statement_text Create)
               (bound_params Create Args)) w0 = ((id, None), w1)
     /\ v = (VPatient (patient_of id Args), None))
  /\ (run h (Resolver.getPatient Args) w = Returned v w' ->
      exists p : Patient,
        h _ (QueryRowScan DPatient (statement_text GetPatient)
               (bound_params GetPatient Args)) w = ((p, None), w')
        /\ v = (VPatientPtr p, None)).
Proof.
  split.
  - cbn. destruct (h _ (Println _) w) as [[] w0] eqn:Hprint. cbn.
    destruct (h _ (QueryRowScan _ _ _) w0) as [[id [e |]] w1] eqn:Hscan; cbn;
      [discriminate |].
    intros [= <- <-]. exists id, w0, w1.
    split; [reflexivity |]. split; [exact Hscan | reflexivity].
  - cbn. destruct (h _ (QueryRowScan _ _ _) w) as [[p [e |]] w1] eqn:Hscan;
      cbn; [discriminate |].
    intros [= <- <-]. exists p. split; reflexivity.
Qed.

Lemma create_returns_arguments_witness :
  run pg (Resolver.create andrew) store_init
    = Returned (VPatient andrew_1, None) (mkStore [andrew_1] 2)
  /\ exists (id : Z) (w0 w1 : store),
     pg _ (Println [arg_name andrew; arg_email andrew; arg_phone andrew])
        store_init = (tt, w0)
     /\ pg _ (QueryRowScan DInt (statement_text Create)
               (bound_params Create andrew)) w0 = ((id, None), w1)
     /\ (VPatient andrew_1, @None error)
        = (VPatient (patient_of id andrew), None).
Proof.
  split; [vm_compute; reflexivity |].
  apply (proj1 (create_returns_arguments pg andrew store_init
                  (mkStore [andrew_1] 2) (VPatient andrew_1, None))).
  vm_compute. reflexivity.
Defined.

(** ** Rows by id *)

Lemma filter_has_id_unique (l : list Patient) (p : Patient) :
  List.NoDup (map ID l) -> In p l -> List.filter (has_id (ID p)) l = [p].
Proof.
  induction l as [| a l IH]; simpl; intros Hnd Hin; [contradiction |].
  apply NoDup_cons_iff in Hnd as [Ha Hnd].
  destruct Hin as [-> | Hin].
  - unfold has_id at 1. rewrite Z.eqb_refl.
    rewrite filter_has_id_absent; trivial.
    intros q Hq Hid. apply Ha. apply in_map_iff. now exists q.
  - destruct (has_id (ID p) a) eqn:Hida.
    + apply has_id_true in Hida. exfalso. apply Ha.
      apply in_map_iff. exists p. now split.
    + now apply IH.
Qed.

Lemma filter_other_id_absent id (l : list Patient) :
  (forall p, In p l -> ID p <> id) -> List.filter (other_id id) l = l.
Proof.
  induction l as [| a l IH]; simpl; intros H; trivial.
  unfold other_id at 1.
  rewrite (proj2 (has_id_false id a)) by (apply H; now left).
  cbn. f_equal. apply IH. intros p Hp. apply H. now right.
Qed.

Lemma filter_has_id_set_fields name email phone id (l : list Patient) :
  List.filter (has_id id) (map (set_fields name email phone id) l)
  = map (set_fields name email phone id) (List.filter (has_id id) l).
Proof.
  induction l as [| a l IH]; simpl; trivial.
  unfold has_id at 1. rewrite set_fields_ID. fold (has_id id a).
  destruct (has_id id a); simpl; now rewrite IH.
Qed.

(** The ids of a table that began empty: all from the sequence, which
    began at one. *)
Lemma resolvers_keep_ids_from_one (r : resolver) (Args : gmap string gqlval)
  (s : store) :
  (forall p, In p (table s) -> 1 <= ID p < id_seq s) -> 1 <= id_seq s ->
  let s' := final_state (run pg (resolve r Args) s) in
  (forall p, In p (table s') -> 1 <= ID p < id_seq s') /\ 1 <= id_seq s'.
Proof.
  intros Hids Hseq. destruct r; cbn [resolve]; cbn zeta.
  - rewrite run_getPatient. destruct (List.filter _ _); cbn; auto.
  - rewrite run_getPatients. cbn. auto.
  - rewrite run_create. unfold pg_insert.
    destruct (existsb _ _); [| destruct (existsb _ _)];
      cbn [final_state table id_seq]; (split; [| lia]).
    + intros p Hp. specialize (Hids p Hp). lia.
    + intros p Hp. specialize (Hids p Hp). lia.
    + intros p Hp. apply in_app_iff in Hp as [Hp | [<- | []]].
      * specialize (Hids p Hp). lia.
      * cbn. lia.
  - rewrite run_update. unfold pg_update.
    destruct (_ && _); cbn [final_state table id_seq]; (split; [| lia]);
      trivial.
    intros p Hp. apply in_map_iff in Hp as [p0 [<- Hp0]].
    rewrite set_fields_ID. now apply Hids.
  - rewrite run_delete. cbn [final_state table id_seq]. split; [| lia].
    intros p Hp. apply in_other_id in Hp. now apply Hids.
Qed.

Lemma serve_ids_from_one (reqs : list request) (s : store) :
  (forall p, In p (table s) -> 1 <= ID p < id_seq s) -> 1 <= id_seq s ->
  (forall p, In p (table (serve reqs s)) ->
             1 <= ID p < id_seq (serve reqs s))
  /\ 1 <= id_seq (serve reqs s).
Proof.
  revert s. induction reqs as [| [r Args] rest IH]; intros s Hids Hseq.
  - cbn. auto.
  - cbn [serve].
    destruct (resolvers_keep_ids_from_one r Args s Hids Hseq) as [Hids' Hseq'].
    now apply IH.
Qed.

Lemma serve_id_seq_grows (reqs : list request) (s : store) :
  id_seq s <= id_seq (serve reqs s).
Proof.
  revert s. induction reqs as [| [r Args] rest IH]; intros s; cbn [serve].
  - lia.
  - pose proof (id_seq_grows r Args s) as Hstep.
    specialize (IH (final_state (run pg (resolve r Args) s))). lia.
Qed.

(** ** The table over many requests *)

(** X8. Whatever requests reach the resolvers, in whatever order and
    however each of them ends, a table that satisfies its invariant (ids
    given by the sequence, ids and e-mails unique) satisfies it after
    them. *)
Theorem serve_keeps_wf (reqs : list request) (s : store) :
  store_wf s -> store_wf (serve reqs s).
Proof.
  revert s. induction reqs as [| [r Args] rest IH]; intros s Hwf; trivial.
  cbn [serve]. apply IH. now apply resolvers_keep_wf.
Qed.

Lemma serve_keeps_wf_witness :
  store_wf store_init
  /\ store_wf (serve [(Create, andrew); (Create, andrew_again);
                      (Update, update_7); (Delete, id_1)] store_init).
Proof.
  split; [exact store_init_wf |].
  apply (serve_keeps_wf [(Create, andrew); (Create, andrew_again);
                         (Update, update_7); (Delete, id_1)] store_init).
  exact store_init_wf.
Defined.

(** X9. The ids of two patients that [create] returns, the second after
    the first and after any requests in between, deletes among them, are
    in strictly growing order: an id is not given twice. *)
Theorem created_ids_increase (Args1 Args2 : gmap string gqlval)
  (between : list request) (s s1 s2 : store) (p1 p2 : Patient) :
  run pg (Resolver.create Args1) s = Returned (VPatient p1, None) s1 ->
  run pg (Resolver.create Args2) (serve between s1)
    = Returned (VPatient p2, None) s2 ->
  ID p1 < ID p2.
Proof.
  intros H1 H2. rewrite run_create in H1, H2. unfold pg_insert in H1, H2.
  destruct (existsb _ (table s)); [discriminate |].
  destruct (existsb _ (table s)); [discriminate |].
  destruct (existsb _ (table (serve between s1))); [discriminate |].
  destruct (existsb _ (table (serve between s1))); [discriminate |].
  injection H1 as <- <-. injection H2 as <- _.
  pose proof (serve_id_seq_grows between
                (mkStore (table s ++ [patient_of (id_seq s) Args1])
                         (id_seq s + 1))) as Hgrow.
  unfold patient_of in *. cbn in *. lia.
Qed.

Lemma created_ids_increase_witness :
  run pg (Resolver.create andrew) store_init
    = Returned (VPatient andrew_1, None) (mkStore [andrew_1] 2)
  /\ run pg (Resolver.create john)
         (serve [(Delete, id_1); (Create, andrew)] (mkStore [andrew_1] 2))
     = Returned (VPatient (mkPatient 3 "John" "john@test.com" "12345678"), None)
         (mkStore [mkPatient 2 "Andrew" "andrew@test.com" "890123490";
                   mkPatient 3 "John" "john@test.com" "12345678"] 4)
  /\ ID andrew_1 < 3.
Proof.
  split; [vm_compute; reflexivity |].
  split; [vm_compute; reflexivity |].
  apply (created_ids_increase andrew john [(Delete, id_1); (Create, andrew)]
           store_init (mkStore [andrew_1] 2)
           (mkStore [mkPatient 2 "Andrew" "andrew@test.com" "890123490";
                     mkPatient 3 "John" "john@test.com" "12345678"] 4)
           andrew_1 (mkPatient 3 "John" "john@test.com" "12345678")).
  - vm_compute. reflexivity.
  - vm_compute. reflexivity.
Defined.

(** X10. When [create] returns, the table holds the rows it held before
    and the returned patient, each once and nothing else, and
    [getPatients] then returns exactly these patients, in the order the
    store gives them. *)
Theorem create_adds_patient (Args Args' : gmap string gqlval)
  (s s1 : store) (v : resolved) :
  run pg (Resolver.create Args) s = Returned v s1 ->
  exists id ps,
    v = (VPatient (patient_of id Args), None)
    /\ Permutation (table s1) (patient_of id Args :: table s)
    /\ run pg (Resolver.getPatients Args') s1 = Returned (VPatients ps, None) s1
    /\ Permutation (slice_elems ps) (patient_of id Args :: table s).
Proof.
  intros Hrun. rewrite run_create in Hrun. unfold pg_insert in Hrun.
  destruct (existsb _ (table s)); [discriminate |].
  destruct (existsb _ (table s)); [discriminate |].
  injection Hrun as <- <-. exists (id_seq s).
  assert (Hperm : Permutation (table s ++ [patient_of (id_seq s) Args])
                              (patient_of (id_seq s) Args :: table s)).
  { symmetry. apply Permutation_cons_append. }
  eexists. split; [reflexivity |]. split; [exact Hperm |].
  rewrite run_getPatients. cbn [table]. split; [reflexivity |].
  destruct (table s); exact Hperm.
Qed.

Lemma create_adds_patient_witness :
  run pg (Resolver.create john) (mkStore [andrew_1] 2)
    = Returned (VPatient (mkPatient 2 "John" "john@test.com" "12345678"), None)
        (mkStore [andrew_1; mkPatient 2 "John" "john@test.com" "12345678"] 3)
  /\ exists id ps,
    (VPatient (mkPatient 2 "John" "john@test.com" "12345678"), @None error)
      = (VPatient (patient_of id john), None)
    /\ Permutation
         (table (mkStore [andrew_1;
                          mkPatient 2 "John" "john@test.com" "12345678"] 3))
         (patient_of id john :: table (mkStore [andrew_1] 2))
    /\ run pg (Resolver.getPatients ∅)
         (mkStore [andrew_1; mkPatient 2 "John" "john@test.com" "12345678"] 3)
       = Returned (VPatients ps, None)
           (mkStore [andrew_1; mkPatient 2 "John" "john@test.com" "12345678"] 3)
    /\ Permutation (slice_elems ps)
                   (patient_of id john :: table (mkStore [andrew_1] 2)).
Proof.
  split; [vm_compute; reflexivity |].
  apply (create_adds_patient john ∅ (mkStore [andrew_1] 2)
           (mkStore [andrew_1; mkPatient 2 "John" "john@test.com" "12345678"] 3)
           (VPatient (mkPatient 2 "John" "john@test.com" "12345678"), None)).
  vm_compute. reflexivity.
Defined.

(** ** Reading a patient *)

(** X11. On a table with unique ids, [getPatient] with the id of a row
    returns that row, field for field, with a nil error, and leaves the
    store as it was. *)
Theorem getPatient_returns_row (Args : gmap string gqlval) (s : store)
  (p : Patient) :
  List.NoDup (map ID (table s)) ->
  In p (table s) ->
  arg_id Args = ID p ->
  run pg (Resolver.getPatient Args) s = Returned (VPatientPtr p, None) s.
Proof.
  intros Hnd Hin Hid. rewrite run_getPatient, Hid.
  now rewrite filter_has_id_unique.
Qed.

Lemma getPatient_returns_row_witness :
  List.NoDup (map ID (table (mkStore [john_1; andrew_2] 3)))
  /\ In andrew_2 (table (mkStore [john_1; andrew_2] 3))
  /\ arg_id {[ "id" := GInt 2 ]} = ID andrew_2
  /\ run pg (Resolver.getPatient {[ "id" := GInt 2 ]})
         (mkStore [john_1; andrew_2] 3)
     = Returned (VPatientPtr andrew_2, None) (mkStore [john_1; andrew_2] 3).
Proof.
  assert (Hnd : List.NoDup (map ID (table (mkStore [john_1; andrew_2] 3)))).
  { cbn. repeat constructor; cbn; intuition discriminate. }
  split; [exact Hnd |].
  split; [cbn; tauto |].
  split; [vm_compute; reflexivity |].
  apply (getPatient_returns_row {[ "id" := GInt 2 ]}
           (mkStore [john_1; andrew_2] 3) andrew_2).
  - exact Hnd.
  - cbn. tauto.
  - vm_compute. reflexivity.
Defined.

(** X12. A [getPatient] request without the [id] argument, which the
    schema allows, asks for id 0; and on a table that began empty, after
    any requests, a [getPatient] for an id below one finds no row and
    ends the process with [sql.ErrNoRows]. *)
Theorem getPatient_without_id_exits (Args : gmap string gqlval)
  (reqs : list request) :
  (Args !! "id" = None -> arg_id Args = 0)
  /\ (arg_id Args < 1 ->
      run pg (Resolver.getPatient Args) (serve reqs store_init)
      = Exited ErrNoRows (serve reqs store_init)).
Proof.
  split.
  - intros Hnone. unfold arg_id. now rewrite Hnone.
  - intros Hid. rewrite run_getPatient.
    rewrite filter_has_id_absent; trivial.
    intros p Hp.
    assert (H0 : forall q, In q (table store_init) ->
                           1 <= ID q < id_seq store_init)
      by (intros q []).
    destruct (serve_ids_from_one reqs store_init H0) as [Hids _];
      [cbn; lia |].
    specialize (Hids p Hp). lia.
Qed.

Lemma getPatient_without_id_exits_witness :
  (∅ : gmap string gqlval) !! "id" = None
  /\ arg_id ∅ < 1
  /\ arg_id ∅ = 0
  /\ run pg (Resolver.getPatient ∅) (serve [(Create, andrew)] store_init)
     = Exited ErrNoRows (serve [(Create, andrew)] store_init).
Proof.
  split; [reflexivity |].
  split; [vm_compute; reflexivity |].
  split.
  - apply (proj1 (getPatient_without_id_exits ∅ [(Create, andrew)])).
    reflexivity.
  - apply (proj2 (getPatient_without_id_exits ∅ [(Create, andrew)])).
    vm_compute. reflexivity.
Defined.

(** ** Updating and deleting rows *)

Lemma unique_email_same_row (l : list Patient) (p q : Patient) :
  List.NoDup (map Email l) -> In p l -> In q l -> Email q = Email p -> q = p.
Proof.
  induction l as [| a l IH]; simpl; intros Hnd Hp Hq He; [contradiction |].
  apply NoDup_cons_iff in Hnd as [Ha Hnd].
  destruct Hp as [-> | Hp], Hq as [-> | Hq]; trivial.
  - exfalso. apply Ha. apply in_map_iff. now exists q.
  - exfalso. apply Ha. apply in_map_iff. exists p. now split.
  - now apply IH.
Qed.

(** X13. On a table that satisfies its invariant, [update] with the id
    of a row and an e-mail that no other row has returns the patient
    made of its arguments, and [getPatient] with that id then returns a
    patient with the same id, name, e-mail and phone; the table has as
    many rows as before and keeps its invariant. *)
Theorem update_then_getPatient (Args : gmap string gqlval) (s : store)
  (p : Patient) :
  store_wf s ->
  In p (table s) ->
  ID p = arg_id Args ->
  (forall q, In q (table s) -> ID q <> arg_id Args ->
             Email q <> arg_email Args) ->
  exists s1,
    run pg (Resolver.update Args) s
      = Returned (VPatient (patient_of (arg_id Args) Args), None) s1
    /\ run pg (Resolver.getPatient Args) s1
       = Returned (VPatientPtr (patient_of (arg_id Args) Args), None) s1
    /\ In (patient_of (arg_id Args) Args) (table s1)
    /\ length (table s1) = length (table s)
    /\ store_wf s1.
Proof.
  intros Hwf Hin Hid Hfree.
  pose proof (resolvers_keep_wf Update Args s Hwf) as Hwf1.
  cbn [resolve] in Hwf1. rewrite run_update in Hwf1. rewrite run_update.
  assert (Hhit : List.filter (has_id (arg_id Args)) (table s) = [p]).
  { rewrite <- Hid. apply filter_has_id_unique; [apply Hwf | exact Hin]. }
  assert (Hothers : existsb (has_email (arg_email Args))
                      (List.filter (other_id (arg_id Args)) (table s)) = false).
  { apply no_row_with_email. intros q Hq. apply in_other_id in Hq as [Hq Hne].
    now apply Hfree. }
  unfold pg_update in *. rewrite Hhit, Hothers in *.
  cbn [length Nat.ltb Nat.leb orb] in *. rewrite andb_false_r in *.
  cbn [final_state] in Hwf1. eexists. split; [reflexivity |].
  assert (Hnew : set_fields (arg_name Args) (arg_email Args) (arg_phone Args)
                   (arg_id Args) p = patient_of (arg_id Args) Args).
  { unfold set_fields. rewrite (proj2 (has_id_true _ _) Hid).
    unfold patient_of. now rewrite Hid. }
  split; [| split; [| split]].
  - rewrite run_getPatient. cbn [table].
    rewrite filter_has_id_set_fields, Hhit. cbn [map]. now rewrite Hnew.
  - cbn [table]. apply in_map_iff. exists p. split; [exact Hnew | exact Hin].
  - cbn [table]. apply length_map.
  - exact Hwf1.
Qed.

Lemma update_then_getPatient_witness :
  store_wf (serve [(Create, andrew)] store_init)
  /\ In andrew_1 (table (serve [(Create, andrew)] store_init))
  /\ ID andrew_1 = arg_id update_1_no_name
  /\ exists s1,
    run pg (Resolver.update update_1_no_name)
        (serve [(Create, andrew)] store_init)
      = Returned (VPatient (patient_of (arg_id update_1_no_name)
                                       update_1_no_name), None) s1
    /\ run pg (Resolver.getPatient update_1_no_name) s1
       = Returned (VPatientPtr (patient_of (arg_id update_1_no_name)
                                           update_1_no_name), None) s1
    /\ In (patient_of (arg_id update_1_no_name) update_1_no_name) (table s1)
    /\ length (table s1)
       = length (table (serve [(Create, andrew)] store_init))
    /\ store_wf s1.
Proof.
  assert (Hwf : store_wf (serve [(Create, andrew)] store_init)).
  { apply (resolvers_keep_wf Create andrew store_init store_init_wf). }
  split; [exact Hwf |].
  split; [vm_compute; tauto |].
  split; [vm_compute; reflexivity |].
  apply (update_then_getPatient update_1_no_name
           (serve [(Create, andrew)] store_init) andrew_1).
  - exact Hwf.
  - vm_compute. tauto.
  - vm_compute. reflexivity.
  - intros q Hq Hne. exfalso. apply Hne.
    vm_compute in Hq. destruct Hq as [<- | []]. vm_compute. reflexivity.
Defined.

(** X14. [update] with the id of a row and the e-mail of a row of
    another id is refused by the store: the process ends with a unique
    violation on the e-mail and the store is as it was. *)
Theorem update_to_taken_email_exits (Args : gmap string gqlval) (s : store)
  (p q : Patient) :
  In p (table s) -> ID p = arg_id Args ->
  In q (table s) -> ID q <> arg_id Args -> Email q = arg_email Args ->
  run pg (Resolver.update Args) s
  = Exited (unique_violation "patients_email_key") s.
Proof.
  intros Hp Hpid Hq Hqid Hqe. rewrite run_update. unfold pg_update.
  assert (Hid : existsb (has_id (arg_id Args)) (table s) = true).
  { apply existsb_exists. exists p. split; [exact Hp |].
    now apply has_id_true. }
  assert (He : existsb (has_email (arg_email Args))
                 (List.filter (other_id (arg_id Args)) (table s)) = true).
  { apply existsb_exists. exists q. split.
    - apply in_other_id. now split.
    - now apply has_email_true. }
  now rewrite Hid, He.
Qed.

Lemma update_to_taken_email_exits_witness :
  In john_1 (table (mkStore [john_1; andrew_2] 3))
  /\ ID john_1 = arg_id update_1_no_name
  /\ In andrew_2 (table (mkStore [john_1; andrew_2] 3))
  /\ ID andrew_2 <> arg_id update_1_no_name
  /\ Email andrew_2 = arg_email update_1_no_name
  /\ run pg (Resolver.update update_1_no_name) (mkStore [john_1; andrew_2] 3)
     = Exited (unique_violation "patients_email_key")
         (mkStore [john_1; andrew_2] 3).
Proof.
  split; [cbn; tauto |].
  split; [vm_compute; reflexivity |].
  split; [cbn; tauto |].
  split; [vm_compute; discriminate |].
  split; [vm_compute; reflexivity |].
  apply (update_to_taken_email_exits update_1_no_name
           (mkStore [john_1; andrew_2] 3) john_1 andrew_2).
  - cbn. tauto.
  - vm_compute. reflexivity.
  - cbn. tauto.
  - vm_compute. discriminate.
  - vm_compute. reflexivity.
Defined.

(** X15. [delete] for an id that no row has leaves the store exactly as
    it was. *)
Theorem delete_missing_id_no_change (Args : gmap string gqlval) (s : store) :
  (forall p, In p (table s) -> ID p <> arg_id Args) ->
  run pg (Resolver.delete Args) s = Returned (VNil, None) s.
Proof.
  intros Hno. rewrite run_delete.
  rewrite filter_other_id_absent by exact Hno. now destruct s.
Qed.

Lemma delete_missing_id_no_change_witness :
  (forall p, In p (table (mkStore [andrew_1] 2)) -> ID p <> arg_id update_7)
  /\ run pg (Resolver.delete update_7) (mkStore [andrew_1] 2)
     = Returned (VNil, None) (mkStore [andrew_1] 2).
Proof.
  assert (Hno : forall p, In p (table (mkStore [andrew_1] 2)) ->
                          ID p <> arg_id update_7).
  { intros p [<- | []]. vm_compute. discriminate. }
  split; [exact Hno |].
  apply (delete_missing_id_no_change update_7 (mkStore [andrew_1] 2)).
  exact Hno.
Defined.

(** X16. [delete] twice is [delete] once: after a [delete], a second
    [delete] for the same id leaves the store as the first left it, and a
    [getPatient] for that id ends the process with [sql.ErrNoRows], on
    every table. *)
Theorem delete_twice (Args : gmap string gqlval) (s : store) :
  let s1 := final_state (run pg (Resolver.delete Args) s) in
  run pg (Resolver.delete Args) s1 = Returned (VNil, None) s1
  /\ run pg (Resolver.getPatient Args) s1 = Exited ErrNoRows s1.
Proof.
  cbn zeta. rewrite run_delete. cbn [final_state].
  assert (Hgone : forall p,
      In p (List.filter (other_id (arg_id Args)) (table s)) ->
      ID p <> arg_id Args).
  { intros p Hp. now apply in_other_id in Hp. }
  split.
  - rewrite run_delete. cbn [table id_seq].
    now rewrite filter_other_id_absent.
  - rewrite run_getPatient. cbn [table].
    now rewrite filter_has_id_absent.
Qed.

(** X17. A [delete] frees the e-mail of the row it takes out: on a table
    that satisfies its invariant, after the [delete] of a row a [create]
    with the e-mail of that row returns, and the new patient has a
    greater id than the deleted row had. *)
Theorem delete_frees_email (Args Args2 : gmap string gqlval) (s : store)
  (p : Patient) :
  store_wf s ->
  In p (table s) ->
  ID p = arg_id Args ->
  arg_email Args2 = Email p ->
  exists id s2,
    run pg (Resolver.create Args2)
        (final_state (run pg (Resolver.delete Args) s))
      = Returned (VPatient (patient_of id Args2), None) s2
    /\ ID p < id
    /\ In (patient_of id Args2) (table s2)
    /\ ~ In p (table s2).
Proof.
  intros Hwf Hin Hid Hemail. destruct Hwf as [Hseq Hids Hemails].
  rewrite run_delete. cbn [final_state]. rewrite run_create.
  unfold pg_insert. cbn [table id_seq].
  assert (Hnoid : existsb (has_id (id_seq s))
                    (List.filter (other_id (arg_id Args)) (table s)) = false).
  { apply no_row_with_id. intros q Hq. apply in_other_id in Hq as [Hq _].
    specialize (Hseq q Hq). lia. }
  assert (Hnoemail : existsb (has_email (arg_email Args2))
                    (List.filter (other_id (arg_id Args)) (table s)) = false).
  { apply no_row_with_email. intros q Hq He.
    apply in_other_id in Hq as [Hq Hne]. rewrite Hemail in He.
    apply Hne. rewrite <- Hid. f_equal.
    now apply (unique_email_same_row (table s)). }
  rewrite Hnoid, Hnoemail. exists (id_seq s). eexists.
  split; [reflexivity |]. split; [specialize (Hseq p Hin); lia |].
  cbn [table]. split.
  - apply in_app_iff. right. now left.
  - intros Hp. apply in_app_iff in Hp as [Hp | [Hp | []]].
    + apply in_other_id in Hp. tauto.
    + specialize (Hseq p Hin). rewrite <- Hp in Hseq. cbn in Hseq. lia.
Qed.

Lemma delete_frees_email_witness :
  store_wf (serve [(Create, andrew)] store_init)
  /\ In andrew_1 (table (serve [(Create, andrew)] store_init))
  /\ ID andrew_1 = arg_id id_1
  /\ arg_email andrew_again = Email andrew_1
  /\ exists id s2,
    run pg (Resolver.create andrew_again)
        (final_state (run pg (Resolver.delete id_1)
                        (serve [(Create, andrew)] store_init)))
      = Returned (VPatient (patient_of id andrew_again), None) s2
    /\ ID andrew_1 < id
    /\ In (patient_of id andrew_again) (table s2)
    /\ ~ In andrew_1 (table s2).
Proof.
  assert (Hwf : store_wf (serve [(Create, andrew)] store_init)).
  { apply (resolvers_keep_wf Create andrew store_init store_init_wf). }
  split; [exact Hwf |].
  split; [vm_compute; tauto |].
  split; [vm_compute; reflexivity |].
  split; [vm_compute; reflexivity |].
  apply (delete_frees_email id_1 andrew_again
           (serve [(Create, andrew)] store_init) andrew_1).
  - exact Hwf.
  - vm_compute. tauto.
  - vm_compute. reflexivity.
  - vm_compute. reflexivity.
Defined.

(** ** The schema and the resolvers *)

(** X18. A resolver reads no argument that its field does not declare:
    two argument maps that agree on the declared arguments of a field
    give the same program, so the same calls, the same outcome and the
    same value on every store. *)
Theorem resolvers_read_declared_arguments (r : resolver)
  (Args1 Args2 : gmap string gqlval) :
  (forall k t, In (k, t) (field_args r) -> Args1 !! k = Args2 !! k) ->
  resolve r Args1 = resolve r Args2
  /\ (forall W (h : handler W) w,
        run h (resolve r Args1) w = run h (resolve r Args2) w).
Proof.
  intros Hsame.
  assert (Hprog : resolve r Args1 = resolve r Args2).
  { destruct r; cbn [resolve field_args] in *.
    - unfold Resolver.getPatient.
      now rewrite (Hsame "id" TInt) by (cbn; tauto).
    - reflexivity.
    - unfold Resolver.create.
      rewrite (Hsame "name" (TNonNull TString)) by (cbn; tauto).
      rewrite (Hsame "email" (TNonNull TString)) by (cbn; tauto).
      now rewrite (Hsame "phone" (TNonNull TString)) by (cbn; tauto).
    - unfold Resolver.update.
      rewrite (Hsame "id" (TNonNull TInt)) by (cbn; tauto).
      rewrite (Hsame "name" TString) by (cbn; tauto).
      rewrite (Hsame "email" (TNonNull TString)) by (cbn; tauto).
      now rewrite (Hsame "phone" (TNonNull TString)) by (cbn; tauto).
    - unfold Resolver.delete.
      now rewrite (Hsame "id" (TNonNull TInt)) by (cbn; tauto). }
  split; [exact Hprog |].
  intros W h w. now rewrite Hprog.
Qed.

Lemma resolvers_read_declared_arguments_witness :
  (forall k t, In (k, t) (field_args Delete) -> id_1 !! k = id_1_named !! k)
  /\ resolve Delete id_1 = resolve Delete id_1_named.
Proof.
  assert (Hsame : forall k t, In (k, t) (field_args Delete) ->
                              id_1 !! k = id_1_named !! k).
  { intros k t [[= <- <-] | []]. vm_compute. reflexivity. }
  split; [exact Hsame |].
  apply (resolvers_read_declared_arguments Delete id_1 id_1_named).
  exact Hsame.
Defined.
